(** * Computed parameters: a model of [hacks/computed_parameters.ipynb]

    The notebook defines two classes and two pieces of module-level code:

    - [SpectralNormWeight]: a module whose [forward] runs power iteration on a
      stored matrix and returns the matrix divided by the estimate of its
      largest singular value;
    - [ComputedParameter]: a module that wraps a zero-argument computation
      [m], keeps its last result in [cache] and presents itself to the
      framework as a tensor through [__torch_function__];
    - the loop that installs proxy methods on [ComputedParameter];
    - [replace_setattr], which replaces [torch.nn.Module.__setattr__].

    Tensors are lists of scalars over an interface [Scalar]; Python objects
    that are mutated in place (the buffers [u] and [v], the wrapper objects)
    live in explicit stores so that aliasing is visible. *)

From Stdlib Require Import ZArith Floats.
From stdpp Require Import gmap strings list.

(** ** Scalars and the tensor operations used by the notebook *)

(** The arithmetic of tensor elements.  Every statement below that is
    quantified over a [Scalar] holds for any implementation of these six
    operations; [float_scalar] is the binary64 one. *)
Class Scalar (R : Type) := {
  s_zero : R;
  s_add : R -> R -> R;
  s_mul : R -> R -> R;
  s_div : R -> R -> R;
  s_sqrt : R -> R;
  s_max : R -> R -> R
}.

#[export] Instance float_scalar : Scalar float := {|
  s_zero := 0%float;
  s_add := PrimFloat.add;
  s_mul := PrimFloat.mul;
  s_div := PrimFloat.div;
  s_sqrt := PrimFloat.sqrt;
  s_max := fun a b => if PrimFloat.ltb a b then b else a
|}.

(** A strided view of a flat storage, as returned by [view] and [transpose]. *)
Record Tensor (R : Type) := {
  storage : list R;
  sizes : list nat;
  strides : list nat
}.
Arguments storage {R} _.
Arguments sizes {R} _.
Arguments strides {R} _.

Section LinearAlgebra.
Context {R : Type} `{Scalar R}.

(** [torch.dot] *)
Definition dot (x y : list R) : R :=
  fold_left s_add (zip_with s_mul x y) s_zero.

(** [torch.mv] on a matrix given by its rows *)
Definition mv (A : list (list R)) (x : list R) : list R :=
  map (fun row => dot row x) A.

(** [A.t()] for a matrix with [w] columns *)
Definition mat_t (w : nat) (A : list (list R)) : list (list R) :=
  map (fun j => map (fun row => nth j row s_zero) A) (seq 0 w).

(** the 2-norm that [torch.nn.functional.normalize] divides by *)
Definition norm2 (x : list R) : R := s_sqrt (dot x x).

(** [torch.nn.functional.normalize(x, dim=0, eps=eps)]:
    [x / max(norm(x), eps)] *)
Definition normalize (eps : R) (x : list R) : list R :=
  let denom := s_max (norm2 x) eps in
  map (fun a => s_div a denom) x.

(** [A / sigma] *)
Definition mat_div (A : list (list R)) (sigma : R) : list (list R) :=
  map (map (fun a => s_div a sigma)) A.

(** strides of a contiguous tensor of the given sizes *)
Fixpoint contiguous_strides (sz : list nat) : list nat :=
  match sz with
  | [] => []
  | _ :: rest => fold_right Nat.mul 1 rest :: contiguous_strides rest
  end.

(** [x.view(sz)] of a contiguous matrix *)
Definition view (A : list (list R)) (sz : list nat) : Tensor R :=
  {| storage := concat A; sizes := sz; strides := contiguous_strides sz |}.

Definition swap_at (i j : nat) (l : list nat) : list nat :=
  match l !! i, l !! j with
  | Some a, Some b => <[j := a]> (<[i := b]> l)
  | _, _ => l
  end.

(** [t.transpose(i, j)]: the same storage with two dimensions exchanged *)
Definition transpose (t : Tensor R) (i j : nat) : Tensor R :=
  {| storage := storage t;
     sizes := swap_at i j (sizes t);
     strides := swap_at i j (strides t) |}.
End LinearAlgebra.

(** ** SpectralNormWeight *)

Record SpectralNormWeight (R : Type) := {
  n_power_iterations : nat;
  eps : R;
  dim : nat;
  shape : list nat;
  permuted_shape : list nat;
  weight_mat : list (list R);      (* the Parameter *)
  weight_mat_version : Z;          (* its [_version] counter *)
  u : list R;                      (* buffer *)
  v : list R;                      (* buffer *)
  training : bool
}.
Arguments n_power_iterations {R} _.
Arguments eps {R} _.
Arguments dim {R} _.
Arguments shape {R} _.
Arguments permuted_shape {R} _.
Arguments weight_mat {R} _.
Arguments weight_mat_version {R} _.
Arguments u {R} _.
Arguments v {R} _.
Arguments training {R} _.

(** The tensor objects [forward] can name: the two buffers of the module and
    the objects allocated by [clone] during the call. *)
Inductive tref := BufU | BufV | Fresh (k : nat).

#[export] Instance tref_eq_dec : EqDecision tref.
Proof. solve_decision. Defined.

Record frame (R : Type) := {
  self_u : list R;
  self_v : list R;
  fresh : list (list R)
}.
Arguments self_u {R} _.
Arguments self_v {R} _.
Arguments fresh {R} _.

Section SpectralNormWeight.
Context {R : Type} `{Scalar R}.

(** [__init__]; [randn_mat] and [randn_vec] stand for [torch.randn]. *)
Definition SpectralNormWeight_init
    (randn_mat : nat -> nat -> list (list R)) (randn_vec : nat -> list R)
    (shape : list nat) (dim : nat) (eps : R) (n_power_iterations : nat)
    : SpectralNormWeight R :=
  let permuted_shape := [nth dim shape 0] ++ take dim shape ++ drop (dim + 1) shape in
  let h := nth dim shape 0 in
  let w := fold_right Nat.mul 1 (tail permuted_shape) in
  {| n_power_iterations := n_power_iterations;
     eps := eps;
     dim := dim;
     shape := shape;
     permuted_shape := permuted_shape;
     weight_mat := randn_mat h w;
     weight_mat_version := 0;
     u := normalize eps (randn_vec h);
     v := normalize eps (randn_vec w);
     training := true |}.

Definition width (self : SpectralNormWeight R) : nat :=
  fold_right Nat.mul 1 (tail (permuted_shape self)).

Definition read (f : frame R) (r : tref) : list R :=
  match r with
  | BufU => self_u f
  | BufV => self_v f
  | Fresh k => default [] (fresh f !! k)
  end.

(** [out=r]: the result is stored in the object [r] refers to *)
Definition write_out (f : frame R) (r : tref) (x : list R) : frame R :=
  match r with
  | BufU => {| self_u := x; self_v := self_v f; fresh := fresh f |}
  | BufV => {| self_u := self_u f; self_v := x; fresh := fresh f |}
  | Fresh k => {| self_u := self_u f; self_v := self_v f; fresh := <[k := x]> (fresh f) |}
  end.

(** [r.clone(...)]: a new object with the same contents *)
Definition clone (f : frame R) (r : tref) : tref * frame R :=
  (Fresh (length (fresh f)),
   {| self_u := self_u f; self_v := self_v f; fresh := fresh f ++ [read f r] |}).

(** The body of the [for] loop; the locals [u] and [v] are references. *)
Definition power_iteration_body (self : SpectralNormWeight R)
    (st : frame R * tref * tref) : frame R * tref * tref :=
  let '(f, lu, lv) := st in
  let A := weight_mat self in
  let f1 := write_out f lv (normalize (eps self) (mv (mat_t (width self) A) (read f lu))) in
  let f2 := write_out f1 lu (normalize (eps self) (mv A (read f1 lv))) in
  let '(lu', f3) := clone f2 lu in
  let '(lv', f4) := clone f3 lv in
  (f4, lu', lv').

(** [u = self.u] and [v = self.v]: the locals name the buffers *)
Definition initial_locals (self : SpectralNormWeight R) : frame R * tref * tref :=
  ({| self_u := u self; self_v := v self; fresh := [] |}, BufU, BufV).

(** [forward] up to the line that computes [sigma] *)
Definition forward_locals (self : SpectralNormWeight R) : frame R * tref * tref :=
  if training self
  then Nat.iter (n_power_iterations self) (power_iteration_body self) (initial_locals self)
  else initial_locals self.

(** the contents of the objects the locals [u] and [v] name *)
Definition local_values (st : frame R * tref * tref) : list R * list R :=
  (read st.1.1 st.1.2, read st.1.1 st.2).

Definition forward_sigma (self : SpectralNormWeight R) : R :=
  let '(f, lu, lv) := forward_locals self in
  dot (read f lu) (mv (weight_mat self) (read f lv)).

Definition scaled_weight (self : SpectralNormWeight R) (sigma : R) : Tensor R :=
  let weight := view (mat_div (weight_mat self) sigma) (permuted_shape self) in
  if decide (dim self = 0) then weight else transpose weight 0 (dim self).

Definition store_buffers (self : SpectralNormWeight R) (f : frame R)
    : SpectralNormWeight R :=
  {| n_power_iterations := n_power_iterations self;
     eps := eps self;
     dim := dim self;
     shape := shape self;
     permuted_shape := permuted_shape self;
     weight_mat := weight_mat self;
     weight_mat_version := weight_mat_version self;
     u := self_u f;
     v := self_v f;
     training := training self |}.

(** [forward]: the returned tensor and the module after the call *)
Definition forward (self : SpectralNormWeight R) : Tensor R * SpectralNormWeight R :=
  let '(f, lu, lv) := forward_locals self in
  let sigma := dot (read f lu) (mv (weight_mat self) (read f lv)) in
  (scaled_weight self sigma, store_buffers self f).

(** The locals are in one of two shapes: they name the two buffers, or they
    name two different objects made by [clone]. *)
Definition locals_ok (st : frame R * tref * tref) : Prop :=
  let '(f, lu, lv) := st in
  (lu = BufU ∧ lv = BufV) ∨
  (∃ i j, lu = Fresh i ∧ lv = Fresh j ∧ i ≠ j ∧
          i < length (fresh f) ∧ j < length (fresh f)).

(** The step the power iteration is meant to take, on values. *)
Definition power_step (self : SpectralNormWeight R) (uv : list R * list R)
    : list R * list R :=
  let v' := normalize (eps self) (mv (mat_t (width self) (weight_mat self)) uv.1) in
  let u' := normalize (eps self) (mv (weight_mat self) v') in
  (u', v').
End SpectralNormWeight.

(** ** ComputedParameter *)

(** What [ComputedParameter] uses of the wrapped module [m]: calling it, which
    returns a tensor and may update the module in place, and the [_version]
    counters of its parameters in the order of [parameters()]. *)
Class TorchModule (M T : Type) := {
  call : M -> T * M;
  parameter_versions : M -> list Z
}.

#[export] Instance SpectralNormWeight_module {R : Type} `{Scalar R}
  : TorchModule (SpectralNormWeight R) (Tensor R) := {|
  call := forward;
  parameter_versions := fun self => [weight_mat_version self]
|}.

(** A tensor object: its identity and its contents. *)
Record tobj (T : Type) := { tid : nat; tval : T }.
Arguments tid {T} _.
Arguments tval {T} _.

Record ComputedParameter (M T : Type) := {
  m : M;
  needs_update : bool;
  cache : option (tobj T);
  param_versions : option (list Z)
}.
Arguments m {M T} _.
Arguments needs_update {M T} _.
Arguments cache {M T} _.
Arguments param_versions {M T} _.

(** The wrapper objects by address, the hooks registered on tensor objects
    ([(t, a)]: [require_update] of the wrapper at [a] is a hook of tensor
    [t]), the next tensor identity, and the addresses of the wrappers whose
    [m] was invoked, most recent first. *)
Record world (M T : Type) := {
  objs : gmap nat (ComputedParameter M T);
  hooks : list (nat * nat);
  next_tid : nat;
  log : list nat
}.
Arguments objs {M T} _.
Arguments hooks {M T} _.
Arguments next_tid {M T} _.
Arguments log {M T} _.

(** Python values that are passed around as arguments and attributes. *)
Inductive value (T V : Type) :=
| VNone
| VInt (z : Z)
| VTensor (t : tobj T)
| VParameter (t : tobj T)
| VComputedParameter (a : nat)
| VOther (x : V).
Arguments VNone {T V}.
Arguments VInt {T V} _.
Arguments VTensor {T V} _.
Arguments VParameter {T V} _.
Arguments VComputedParameter {T V} _.
Arguments VOther {T V} _.

Section ComputedParameter.
Context {M T : Type} `{TorchModule M T}.

(** [__init__] *)
Definition ComputedParameter_init (m0 : M) : ComputedParameter M T :=
  {| m := m0; needs_update := true; cache := None; param_versions := None |}.

Definition require_update (self : ComputedParameter M T) : ComputedParameter M T :=
  {| m := m self; needs_update := true; cache := cache self;
     param_versions := param_versions self |}.

(** the [for p, v in zip(...)] loop of [check_param_versions] *)
Fixpoint check_versions_loop (pvs : list (Z * Z)) (self : ComputedParameter M T)
    : ComputedParameter M T :=
  match pvs with
  | [] => self
  | (p, v) :: rest =>
      if decide (p ≠ v) then require_update self
      else check_versions_loop rest self
  end.

Definition check_param_versions (self : ComputedParameter M T) : ComputedParameter M T :=
  match param_versions self with
  | None => require_update self
  | Some vs => check_versions_loop (zip (parameter_versions (m self)) vs) self
  end.

(** [tensor()] of the wrapper at address [a]; [None] when there is no
    wrapper at [a].  The returned [option (tobj T)] is Python's value of
    [self.cache], which may be [None].  The three statements under the [if]
    are the call of [m], which makes a new tensor object, [register_hook] on
    that object, and the list of versions read after the call.  The tensor
    [m] returns is taken to require gradients; [register_hook] raises on one
    that does not. *)
Definition tensor (a : nat) (w : world M T) : option (option (tobj T) * world M T) :=
  self ← objs w !! a;
  if needs_update self then
    let '(t, m') := call (m self) in
    let c := {| tid := next_tid w; tval := t |} in
    let self' := {| m := m'; needs_update := needs_update self; cache := Some c;
                    param_versions := Some (parameter_versions m') |} in
    Some (Some c,
          {| objs := <[a := self']> (objs w);
             hooks := (tid c, a) :: hooks w;
             next_tid := S (next_tid w);
             log := a :: log w |})
  else Some (cache self, w).

Definition update_obj (a : nat) (f : ComputedParameter M T -> ComputedParameter M T)
    (w : world M T) : world M T :=
  {| objs := alter f a (objs w); hooks := hooks w; next_tid := next_tid w; log := log w |}.

(** A backward pass through the tensor [t] runs the hooks registered on it. *)
Definition backward (t : nat) (w : world M T) : world M T :=
  fold_right (fun h w' => if decide (h.1 = t) then update_obj h.2 require_update w' else w')
             w (hooks w).

Definition set_module (m' : M) (self : ComputedParameter M T) : ComputedParameter M T :=
  {| m := m'; needs_update := needs_update self; cache := cache self;
     param_versions := param_versions self |}.

Definition empty_world : world M T :=
  {| objs := ∅; hooks := []; next_tid := 0; log := [] |}.

(** What a program can do with wrapper objects. [OpExternal] is any change
    made to the wrapped module from outside (an optimizer step that bumps
    the version counters, [train()], [eval()], loading a state dict). *)
Inductive op :=
| OpNew (a : nat) (m0 : M)
| OpTensor (a : nat)
| OpRequireUpdate (a : nat)
| OpCheckParamVersions (a : nat)
| OpBackward (t : nat)
| OpExternal (a : nat) (m' : M).

Definition step (o : op) (w : world M T) : option (world M T) :=
  match o with
  | OpNew a m0 =>
      match objs w !! a with
      | Some _ => None
      | None => Some {| objs := <[a := ComputedParameter_init m0]> (objs w);
                        hooks := hooks w; next_tid := next_tid w; log := log w |}
      end
  | OpTensor a => snd <$> tensor a w
  | OpRequireUpdate a => Some (update_obj a require_update w)
  | OpCheckParamVersions a => Some (update_obj a check_param_versions w)
  | OpBackward t => Some (backward t w)
  | OpExternal a m' => Some (update_obj a (set_module m') w)
  end.

Inductive reachable : world M T -> Prop :=
| reachable_empty : reachable empty_world
| reachable_step o w w' : reachable w -> step o w = Some w' -> reachable w'.

(** a change to a wrapper that does not clear its flag *)
Definition flag_kept (f : ComputedParameter M T → ComputedParameter M T) : Prop :=
  ∀ self, needs_update self = true → needs_update (f self) = true.

(** What holds of every wrapper in a world the operations can produce:
    its flag is set, and its cached tensor, if any, is an object made
    earlier that carries the wrapper's hook. *)
Definition world_inv (w : world M T) : Prop :=
  ∀ a self, objs w !! a = Some self →
    needs_update self = true ∧
    ∀ c, cache self = Some c → tid c < next_tid w ∧ (tid c, a) ∈ hooks w.

(** some parameter's counter differs from the one recorded for it *)
Definition versions_changed (now recorded : list Z) : Prop :=
  ∃ i p v, now !! i = Some p ∧ recorded !! i = Some v ∧ p ≠ v.

(** number of invocations of [m] by the wrapper at [a] *)
Definition invocations (a : nat) (w : world M T) : nat :=
  length (filter (fun b => b = a) (log w)).
End ComputedParameter.

(** ** [__torch_function__] *)

Section TorchFunction.
Context {M T : Type} `{TorchModule M T} {V Res : Type}.

Definition isinstance_ComputedParameter (x : value T V) : bool :=
  match x with VComputedParameter _ => true | _ => false end.

Definition isinstance_Parameter (x : value T V) : bool :=
  match x with VParameter _ => true | _ => false end.

Definition is_None (x : value T V) : bool :=
  match x with VNone => true | _ => false end.

(** the Python value returned by [tensor()] *)
Definition of_cache (o : option (tobj T)) : value T V :=
  match o with Some t => VTensor t | None => VNone end.

(** [a.tensor() if isinstance(a, ComputedParameter) else a] *)
Definition convert_arg (x : value T V) (w : world M T) : option (value T V * world M T) :=
  match x with
  | VComputedParameter a => prod_map of_cache id <$> tensor a w
  | _ => Some (x, w)
  end.

(** [tuple(... for a in args)]: the elements are produced left to right *)
Fixpoint convert_args (args : list (value T V)) (w : world M T)
    : option (list (value T V) * world M T) :=
  match args with
  | [] => Some ([], w)
  | x :: rest =>
      '(y, w1) ← convert_arg x w;
      '(ys, w2) ← convert_args rest w1;
      Some (y :: ys, w2)
  end.

Definition torch_function
    (func : list (value T V) -> gmap string (value T V) -> Res)
    (types : list string)
    (args : list (value T V)) (kwargs : option (gmap string (value T V)))
    (w : world M T) : option (Res * world M T) :=
  let kwargs := default ∅ kwargs in
  '(args', w') ← convert_args args w;
  Some (func args' kwargs, w').

(** the wrapper at [a] is among the positional arguments *)
Definition positional (a : nat) (args : list (value T V)) : Prop :=
  VComputedParameter a ∈ args.
End TorchFunction.

(** ** The proxy methods *)

(** The kinds of members [inspect.getmembers(torch.Tensor)] can yield: the
    methods implemented in C, the methods written in Python, the properties,
    and anything else. *)
Inductive member_kind := MethodDescriptor | PyFunction | DataDescriptor | OtherMember.

Definition ismethoddescriptor (k : member_kind) : bool :=
  match k with MethodDescriptor => true | _ => false end.

(** A callable member of [torch.Tensor]. *)
Definition is_method (k : member_kind) : bool :=
  match k with MethodDescriptor | PyFunction => true | _ => false end.

(** An attribute of the class [ComputedParameter]: one it had before the
    loop ran (from its own body or inherited), or a proxy made by
    [get_proxy]. *)
Inductive class_attr := Existing | Proxy (name : string).

(** The names bound in the class body of [ComputedParameter]. *)
Definition ComputedParameter_body : list string :=
  ["__init__"; "require_update"; "check_param_versions"; "tensor";
   "__torch_function__"; "__hash__"; "__eq__"]%string.

(** The attributes [hasattr(ComputedParameter, _)] finds before the loop:
    the class body and what is inherited from [torch.nn.Module]. *)
Definition ComputedParameter_attrs (inherited : list string) : gmap string class_attr :=
  list_to_map ((fun n => (n, Existing)) <$> (ComputedParameter_body ++ inherited)).

(** One iteration of the loop over [inspect.getmembers(torch.Tensor)]. *)
Definition install_proxy (cls : gmap string class_attr) (nm : string * member_kind)
    : gmap string class_attr :=
  match cls !! nm.1 with
  | Some _ => cls
  | None => if ismethoddescriptor nm.2 then <[nm.1 := Proxy nm.1]> cls else cls
  end.

Definition install_proxies (members : list (string * member_kind))
    (cls : gmap string class_attr) : gmap string class_attr :=
  fold_left install_proxy members cls.

Section Proxy.
Context {M T : Type} `{TorchModule M T} {V Res : Type}.

(** the call of the method [name] of the value [tensor()] returned, with the
    given positional and keyword arguments *)
Variable tensor_method :
  string -> option (tobj T) -> list (value T V) -> gmap string (value T V) -> Res.

(** the methods [ComputedParameter] had before the loop *)
Variable existing_method :
  string -> nat -> list (value T V) -> gmap string (value T V) ->
  world M T -> option (Res * world M T).

(** [new_fn] of [get_proxy(name)] *)
Definition new_fn (name : string) (a : nat)
    (args : list (value T V)) (kwargs : gmap string (value T V))
    (w : world M T) : option (Res * world M T) :=
  '(t, w') ← tensor a w;
  Some (tensor_method name t args kwargs, w').

(** a call of the method [name] on the wrapper at [a]; [None] is an
    [AttributeError] or a missing wrapper. *)
Definition invoke (cls : gmap string class_attr) (name : string) (a : nat)
    (args : list (value T V)) (kwargs : gmap string (value T V))
    (w : world M T) : option (Res * world M T) :=
  match cls !! name with
  | Some (Proxy nm) => new_fn nm a args kwargs w
  | Some Existing => existing_method name a args kwargs w
  | None => None
  end.
End Proxy.

(** Results of method calls, kept symbolic: the hash of a wrapper object, or
    whatever the tensor method [name] returns on [t]. *)
Inductive call_result (T : Type) :=
| HashOfModule (a : nat)
| TensorCall (name : string) (t : option (tobj T)).
Arguments HashOfModule {T} _.
Arguments TensorCall {T} _ _.

(** [ComputedParameter.__hash__] is [super().__hash__()], the hash of the
    module object; it does not touch [tensor()].  The other methods of the
    class body are not needed below. *)
Definition body_method {M T V : Type} (name : string) (a : nat)
    (args : list (value T V)) (kwargs : gmap string (value T V))
    (w : world M T) : option (call_result T * world M T) :=
  if decide (name = "__hash__"%string) then Some (HashOfModule a, w) else None.

(** ** [replace_setattr] *)

Inductive setattr_call (T V : Type) :=
| CallDelattr (n : string)
| CallOldSetattr (n : string) (v : value T V).
Arguments CallDelattr {T V} _.
Arguments CallOldSetattr {T V} _ _.

Section ReplaceSetattr.
Context {T V : Type}.

(** [torch.nn.Module.__setattr__] before the replacement; [None] when it
    raises. *)
Variable old_setattr :
  gmap string (value T V) -> string -> value T V -> option (gmap string (value T V)).

(** the condition of the [if]: [and] binds tighter than [or] *)
Definition splice_condition (v oldval : value T V) : bool :=
  (isinstance_ComputedParameter v && is_None oldval) || isinstance_Parameter oldval.

(** [new_setattr(self, n, v)]: the framework calls it makes, in order, and
    the attributes of [self] afterwards. *)
Definition new_setattr (self : gmap string (value T V)) (n : string) (v : value T V)
    : list (setattr_call T V) * option (gmap string (value T V)) :=
  let oldval := default (VInt 1) (self !! n) in
  if splice_condition v oldval
  then ([CallDelattr n; CallOldSetattr n v], old_setattr (delete n self) n v)
  else ([CallOldSetattr n v], old_setattr self n v).

(** The condition the prose describes: the value is a [ComputedParameter]
    and the attribute holds a parameter or [None]. *)
Definition splice_intended (v oldval : value T V) : bool :=
  isinstance_ComputedParameter v && (is_None oldval || isinstance_Parameter oldval).
End ReplaceSetattr.

(** ** The state the two classes keep *)

Section PersistentState.
Context {R : Type} `{Scalar R}.

(** the attributes of a [SpectralNormWeight] set once by [__init__] *)
Definition same_configuration (m1 m2 : SpectralNormWeight R) : Prop :=
  n_power_iterations m1 = n_power_iterations m2 ∧ eps m1 = eps m2 ∧
  dim m1 = dim m2 ∧ shape m1 = shape m2 ∧
  permuted_shape m1 = permuted_shape m2 ∧ training m1 = training m2.

(** Everything except the weight matrix, [u], [v], [cache] and
    [needs_update] is the same in both states. *)
Definition only_listed_state_differs
    (s1 s2 : ComputedParameter (SpectralNormWeight R) (Tensor R)) : Prop :=
  same_configuration (m s1) (m s2) ∧ param_versions s1 = param_versions s2.

(** The same, with [param_versions] also allowed to differ. *)
Definition only_listed_or_versions_differ
    (s1 s2 : ComputedParameter (SpectralNormWeight R) (Tensor R)) : Prop :=
  same_configuration (m s1) (m s2).

(** the operations of the two classes, as opposed to changes from outside *)
Definition component_op (o : @op (SpectralNormWeight R)) : bool :=
  match o with
  | OpTensor _ | OpRequireUpdate _ | OpCheckParamVersions _ | OpBackward _ => true
  | OpNew _ _ | OpExternal _ _ => false
  end.
End PersistentState.

(** ** Concrete inputs *)

(** [SpectralNormWeight((1, 1), eps=1.0, n_power_iterations=2)] with the
    weight [[0.5]] and both buffers [1.]; every value that occurs is a power
    of two, so the arithmetic is exact in any binary floating-point format. *)
Definition snw_two_iterations : SpectralNormWeight float :=
  SpectralNormWeight_init (fun _ _ => [[0.5%float]]) (fun _ => [1%float]) [1; 1] 0 1%float 2.

(** the same module after an optimizer step changed the weight in place *)
Definition snw_after_step : SpectralNormWeight float :=
  {| n_power_iterations := 2; eps := 1%float; dim := 0; shape := [1; 1];
     permuted_shape := [1; 1]; weight_mat := [[0.25%float]]; weight_mat_version := 1;
     u := [0.25%float]; v := [0.5%float]; training := true |}.

(** [ComputedParameter(snw_two_iterations)] at address 0, not used yet *)
Definition world_new : world (SpectralNormWeight float) (Tensor float) :=
  {| objs := <[0 := ComputedParameter_init snw_two_iterations]> ∅;
     hooks := []; next_tid := 0; log := [] |}.

(** the same wrapper after one call of [tensor()] *)
Definition world_used : world (SpectralNormWeight float) (Tensor float) :=
  default world_new (snd <$> tensor 0 world_new).

(** ** Shapes, repeated calls and counts *)



(** the module after [k] calls of [forward] in a row *)
Definition forward_calls {R : Type} `{Scalar R} (k : nat) (self : SpectralNormWeight R)
    : SpectralNormWeight R :=
  Nat.iter k (fun s => (forward s).2) self.

(** how often the wrapper at [a] occurs among the positional arguments *)
Fixpoint occurrences {T V : Type} (a : nat) (args : list (value T V)) : nat :=
  match args with
  | [] => 0
  | VComputedParameter b :: rest =>
      (if decide (b = a) then 1 else 0) + occurrences a rest
  | _ :: rest => occurrences a rest
  end.

(** a member the loop can install under the name [n] *)
Definition installable (n : string) (members : list (string * member_kind)) : bool :=
  existsb (fun nm => bool_decide (nm.1 = n) && ismethoddescriptor nm.2) members.

(** * Properties *)

(** ** Power iteration in [SpectralNormWeight.forward] *)

Section SpectralNormWeightFacts.
Context {R : Type} `{Scalar R}.
Implicit Types (self : SpectralNormWeight R) (f : frame R) (r : tref).

Lemma read_write_same f r x :
  (∀ k, r = Fresh k → k < length (fresh f)) →
  read (write_out f r x) r = x.
Proof.
  intros Hv. destruct r as [| |k]; simpl; try done.
  rewrite list_lookup_insert_eq; [done|]. by apply Hv.
Qed.

Lemma read_write_other f r r' x :
  r ≠ r' → read (write_out f r x) r' = read f r'.
Proof.
  intros Hne. destruct r as [| |k], r' as [| |k']; simpl; try done.
  rewrite list_lookup_insert_ne; [done|]. congruence.
Qed.

Lemma fresh_write_length f r x :
  length (fresh (write_out f r x)) = length (fresh f).
Proof. destruct r; simpl; try done. by rewrite length_insert. Qed.

Lemma locals_ok_distinct f lu lv : locals_ok (f, lu, lv) → lu ≠ lv.
Proof. intros [[-> ->]|(i & j & -> & -> & ? & _)]; congruence. Qed.

Lemma locals_ok_valid_u f lu lv k :
  locals_ok (f, lu, lv) → lu = Fresh k → k < length (fresh f).
Proof. intros [[-> ->]|(i & j & -> & -> & ? & ? & ?)] Hk; [done|]. by inversion Hk; subst. Qed.

Lemma locals_ok_valid_v f lu lv k :
  locals_ok (f, lu, lv) → lv = Fresh k → k < length (fresh f).
Proof. intros [[-> ->]|(i & j & -> & -> & ? & ? & ?)] Hk; [done|]. by inversion Hk; subst. Qed.

(** One run of the loop body: the new locals name fresh objects holding the
    result of [power_step], and the objects the old locals named hold that
    result too. *)
Lemma power_iteration_body_spec self f lu lv :
  locals_ok (f, lu, lv) →
  let st' := power_iteration_body self (f, lu, lv) in
  let uv' := power_step self (read f lu, read f lv) in
  local_values st' = uv' ∧
  read st'.1.1 lu = uv'.1 ∧ read st'.1.1 lv = uv'.2 ∧
  st'.1.2 = Fresh (length (fresh f)) ∧ st'.2 = Fresh (S (length (fresh f))) ∧
  length (fresh st'.1.1) = S (S (length (fresh f))) ∧
  (∀ r, r ≠ lu → r ≠ lv → (∀ k, r = Fresh k → k < length (fresh f)) →
        read st'.1.1 r = read f r).
Proof.
  intros Hok.
  pose proof (locals_ok_distinct _ _ _ Hok) as Hne.
  pose proof (fun k => locals_ok_valid_u f lu lv k Hok) as Hvu.
  pose proof (fun k => locals_ok_valid_v f lu lv k Hok) as Hvv.
  unfold power_iteration_body, power_step, local_values, clone. simpl.
  set (v1 := normalize (eps self) (mv (mat_t (width self) (weight_mat self)) (read f lu))).
  set (f1 := write_out f lv v1).
  assert (Hr1 : read f1 lv = v1) by (by apply read_write_same).
  rewrite Hr1.
  set (u1 := normalize (eps self) (mv (weight_mat self) v1)).
  set (f2 := write_out f1 lu u1).
  assert (Hlen2 : length (fresh f2) = length (fresh f))
    by (unfold f2, f1; by rewrite !fresh_write_length).
  assert (Hu2 : read f2 lu = u1).
  { apply read_write_same. intros k Hk. unfold f1.
    rewrite fresh_write_length. by apply Hvu. }
  assert (Hv2 : read f2 lv = v1).
  { unfold f2. rewrite read_write_other; [done|congruence]. }
  assert (Hsu : self_u f2 = self_u (write_out f1 lu u1)) by done.
  rewrite Hu2, Hlen2. simpl.
  assert (Hin : ∀ r, (∀ k, r = Fresh k → k < length (fresh f)) →
    read {| self_u := self_u f2; self_v := self_v f2;
            fresh := (fresh f2 ++ [u1]) ++
              [read {| self_u := self_u f2; self_v := self_v f2;
                       fresh := fresh f2 ++ [u1] |} lv] |} r = read f2 r).
  { intros r Hr. destruct r as [| |k]; simpl; try done.
    specialize (Hr k eq_refl).
    rewrite !lookup_app_l; [done|lia|rewrite length_app; simpl; lia]. }
  assert (Hv3 : read {| self_u := self_u f2; self_v := self_v f2;
                        fresh := fresh f2 ++ [u1] |} lv = v1).
  { rewrite <- Hv2. destruct lv as [| |k]; simpl; try done.
    rewrite lookup_app_l; [done|]. rewrite Hlen2. by apply Hvv. }
  rewrite Hv3 in *.
  split_and!.
  - rewrite <- Hlen2. f_equal.
    + rewrite lookup_app_l by (rewrite length_app; simpl; lia).
      by rewrite list_lookup_middle.
    + by rewrite list_lookup_middle.
  - rewrite Hin; [done|]. apply Hvu.
  - rewrite Hin; [done|]. apply Hvv.
  - done.
  - rewrite length_app. simpl. f_equal. lia.
  - rewrite !length_app. simpl. lia.
  - intros r Hru Hrv Hr. rewrite Hin by done.
    unfold f2. rewrite read_write_other by done.
    unfold f1. by rewrite read_write_other.
Qed.
(** The state of the loop after [k] iterations. *)
Lemma power_iteration_invariant self k :
  let st := Nat.iter k (power_iteration_body self) (initial_locals self) in
  local_values st = Nat.iter k (power_step self) (u self, v self) ∧
  ((k = 0 ∧ st = initial_locals self) ∨
   (0 < k ∧ locals_ok st ∧ st.1.2 ≠ BufU ∧ st.1.2 ≠ BufV ∧
    st.2 ≠ BufU ∧ st.2 ≠ BufV ∧
    (self_u st.1.1, self_v st.1.1) = power_step self (u self, v self))).
Proof.
  induction k as [|k IH]; [by split; [|left]|].
  simpl in *. destruct IH as [Hval Hcase].
  destruct (Nat.iter k (power_iteration_body self) (initial_locals self))
    as [[f lu] lv] eqn:Hst.
  assert (Hok : locals_ok (f, lu, lv)).
  { destruct Hcase as [[_ Hinit]|(_ & Hok & _)]; [|done].
    inversion Hinit; subst. by left. }
  destruct (power_iteration_body_spec self f lu lv Hok)
    as (Hv' & Hu & Hv & Hlu & Hlv & Hlen & Hframe).
  destruct (power_iteration_body self (f, lu, lv)) as [[f' lu'] lv'] eqn:Hst'.
  simpl in *. split.
  - rewrite Hv'. by rewrite <- Hval.
  - right. split; [lia|]. subst lu' lv'. split_and!; try done.
    + right. exists (length (fresh f)), (S (length (fresh f))).
      split_and!; try done; lia.
    + destruct Hcase as [[-> Hinit]|(_ & _ & HuU & HuV & HvU & HvV & Hbuf)].
      * inversion Hinit; subst. simpl in *. by rewrite Hu, Hv.
      * assert (HU : read f' BufU = read f BufU) by (by apply Hframe).
        assert (HV : read f' BufV = read f BufV) by (by apply Hframe).
        simpl in HU, HV. by rewrite HU, HV.
Qed.

Lemma store_buffers_initial self :
  store_buffers self (initial_locals self).1.1 = self.
Proof. by destruct self. Qed.

(** Outside training mode [forward] changes nothing in the module and
    takes [sigma] from the stored vectors. *)
Lemma forward_eval self :
  training self = false →
  (forward self).2 = self ∧
  forward_sigma self = dot (u self) (mv (weight_mat self) (v self)).
Proof.
  intros Ht. unfold forward, forward_sigma, forward_locals. rewrite Ht.
  split; [apply store_buffers_initial|done].
Qed.

(** In training mode with at least one iteration the buffers afterwards
    hold the result of the first step. *)
Lemma forward_training_buffers self :
  training self = true → 0 < n_power_iterations self →
  (u (forward self).2, v (forward self).2) = power_step self (u self, v self).
Proof.
  intros Ht Hn. unfold forward, forward_locals. rewrite Ht.
  destruct (power_iteration_invariant self (n_power_iterations self))
    as [_ [[? _]|(_ & _ & _ & _ & _ & _ & Hbuf)]]; [lia|].
  by destruct (Nat.iter _ _ _) as [[f lu] lv].
Qed.

(** With one iteration, the default, the buffers afterwards hold the
    vectors [sigma] was computed from. *)
Lemma forward_training_single self :
  training self = true → n_power_iterations self = 1 →
  let self' := (forward self).2 in
  (u self', v self') = local_values (forward_locals self) ∧
  forward_sigma self = dot (u self') (mv (weight_mat self) (v self')).
Proof.
  intros Ht Hn self'.
  assert (Hb : (u self', v self') = power_step self (u self, v self))
    by (apply forward_training_buffers; [done|lia]).
  assert (Hl : local_values (forward_locals self) = power_step self (u self, v self)).
  { unfold forward_locals. rewrite Ht, Hn.
    by destruct (power_iteration_invariant self 1) as [-> _]. }
  split; [by rewrite Hb, Hl|].
  unfold forward_sigma. destruct (forward_locals self) as [[f lu] lv].
  unfold local_values in Hl. simpl in Hl.
  rewrite <- Hl in Hb. injection Hb as Hu Hv. by rewrite Hu, Hv.
Qed.

(** C4. Each run of the loop body of [SpectralNormWeight.forward] sets [v]
    to the normalization, guarded by [eps], of [A^T u] and then [u] to the
    normalization of [A v] for that new [v], where [A] is [weight_mat]; the
    locals after [j] runs are the [j]-th iterate of that step from the
    stored vectors; and the weight is divided by [sigma = u . (A v)] for
    the vectors the loop ends with. *)
Theorem forward_power_iteration self :
  (∀ x, normalize (eps self) x
        = map (fun a => s_div a (s_max (s_sqrt (dot x x)) (eps self))) x) ∧
  (∀ uv, power_step self uv =
     let v' := normalize (eps self) (mv (mat_t (width self) (weight_mat self)) uv.1) in
     (normalize (eps self) (mv (weight_mat self) v'), v')) ∧
  (∀ j, local_values (Nat.iter j (power_iteration_body self) (initial_locals self))
        = Nat.iter j (power_step self) (u self, v self)) ∧
  let k := if training self then n_power_iterations self else 0 in
  let uv := Nat.iter k (power_step self) (u self, v self) in
  forward_sigma self = dot uv.1 (mv (weight_mat self) uv.2) ∧
  (forward self).1 = scaled_weight self (dot uv.1 (mv (weight_mat self) uv.2)).
Proof.
  split_and!; [done|done|intros j; apply (power_iteration_invariant self j)|].
  intros k uv.
  assert (Hl : local_values (forward_locals self) = uv).
  { unfold forward_locals, uv, k. destruct (training self); [|done].
    apply (power_iteration_invariant self (n_power_iterations self)). }
  unfold forward_sigma, forward.
  destruct (forward_locals self) as [[f lu] lv].
  unfold local_values in Hl. simpl in Hl. by rewrite <- Hl.
Qed.
End SpectralNormWeightFacts.

(** ** The cache of [ComputedParameter] *)

Section ComputedParameterFacts.
Context {M T : Type} `{TorchModule M T}.
Implicit Types (w : world M T) (self : ComputedParameter M T) (a t : nat).

(** What [tensor()] does when the flag is set. *)
Lemma tensor_computes w a self :
  objs w !! a = Some self → needs_update self = true →
  let c := {| tid := next_tid w; tval := (call (m self)).1 |} in
  tensor a w =
    Some (Some c,
          {| objs := <[a := {| m := (call (m self)).2; needs_update := true;
                               cache := Some c;
                               param_versions :=
                                 Some (parameter_versions (call (m self)).2) |}]>
                     (objs w);
             hooks := (next_tid w, a) :: hooks w;
             next_tid := S (next_tid w);
             log := a :: log w |}).
Proof.
  intros Hobj Hflag. unfold tensor. rewrite Hobj. simpl. rewrite Hflag.
  by destruct (call (m self)).
Qed.

(** What [tensor()] does when the flag is clear. *)
Lemma tensor_cached w a self :
  objs w !! a = Some self → needs_update self = false →
  tensor a w = Some (cache self, w).
Proof. intros Hobj Hflag. unfold tensor. rewrite Hobj. simpl. by rewrite Hflag. Qed.

Lemma invocations_cons a w w' :
  log w' = a :: log w → invocations a w' = S (invocations a w).
Proof. unfold invocations. intros ->. by rewrite filter_cons_True. Qed.

Lemma invocations_cons_ne a b w w' :
  a ≠ b → log w' = b :: log w → invocations a w' = invocations a w.
Proof. unfold invocations. intros Hne ->. by rewrite filter_cons_False. Qed.

(** The hooks of a backward pass, run one after the other. *)
Lemma run_hooks_objs t (hs : list (nat * nat)) w b :
  objs (fold_right (fun h w' => if decide (h.1 = t)
                                then update_obj h.2 require_update w' else w') w hs) !! b =
    if decide ((t, b) ∈ hs) then require_update <$> objs w !! b
    else objs w !! b.
Proof.
  induction hs as [|[t' b'] hs IH]; cbn [fold_right].
  - destruct (decide ((t, b) ∈ [])) as [Hin|_]; [by apply elem_of_nil in Hin|done].
  - cbn [fst snd]. destruct (decide (t' = t)) as [->|Hne].
    + unfold update_obj at 1. cbn [objs].
      destruct (decide (b' = b)) as [->|Hb].
      * rewrite lookup_alter_eq, IH.
        rewrite (decide_True (P := (t, b) ∈ (t, b) :: hs)) by left.
        destruct (decide ((t, b) ∈ hs)); [|done]. by destruct (objs w !! b).
      * rewrite lookup_alter_ne, IH by done.
        destruct (decide ((t, b) ∈ hs)) as [Hin|Hnin].
        -- rewrite decide_True; [done|by right].
        -- rewrite decide_False; [done|].
           intros [Heq|?]%elem_of_cons; [congruence|done].
    + rewrite IH. destruct (decide ((t, b) ∈ hs)) as [Hin|Hnin].
      * rewrite decide_True; [done|by right].
      * rewrite decide_False; [done|].
        intros [Heq|?]%elem_of_cons; [congruence|done].
Qed.

Lemma backward_objs t w b :
  objs (backward t w) !! b =
    if decide ((t, b) ∈ hooks w) then require_update <$> objs w !! b
    else objs w !! b.
Proof. apply run_hooks_objs. Qed.

Lemma backward_rest t w :
  hooks (backward t w) = hooks w ∧ next_tid (backward t w) = next_tid w ∧
  log (backward t w) = log w.
Proof.
  unfold backward. generalize (hooks w) at 1 3 4. intros hs.
  induction hs as [|h hs IH]; simpl; [done|]. by case_decide.
Qed.

(** The loop of [check_param_versions] sets the flag when it meets a
    counter that differs from the recorded one, and otherwise leaves the
    object alone. *)
Lemma check_versions_loop_spec pvs self :
  (Exists (fun pv => pv.1 ≠ pv.2) pvs ∧ check_versions_loop pvs self = require_update self) ∨
  (Forall (fun pv => pv.1 = pv.2) pvs ∧ check_versions_loop pvs self = self).
Proof.
  induction pvs as [|[p v] pvs IH]; simpl; [by right|].
  case_decide as Hpv.
  - left. split; [by left|done].
  - destruct IH as [[? ->]|[? ->]].
    + left. split; [by right|done].
    + right. split; [|done]. constructor; [|done]. simpl. by destruct (decide (p = v)).
Qed.

(** [check_param_versions] sets the flag, whatever it was, when a counter
    has changed since the versions were recorded. *)
Lemma check_param_versions_detects self vs :
  param_versions self = Some vs →
  versions_changed (parameter_versions (m self)) vs →
  needs_update (check_param_versions self) = true.
Proof.
  intros Hvs (i & p & v & Hp & Hv & Hne). unfold check_param_versions. rewrite Hvs.
  destruct (check_versions_loop_spec (zip (parameter_versions (m self)) vs) self)
    as [[_ ->]|[Hall _]]; [done|].
  exfalso. rewrite Forall_lookup in Hall.
  apply Hne, (Hall i (p, v)).
  by apply lookup_zip_Some.
Qed.

Lemma flag_kept_require_update : flag_kept (@require_update M T).
Proof. by intros self _. Qed.

Lemma flag_kept_check_param_versions : flag_kept check_param_versions.
Proof.
  intros self Hs. unfold check_param_versions.
  destruct (param_versions self); [|done].
  by destruct (check_versions_loop_spec (zip (parameter_versions (m self)) l) self)
    as [[_ ->]|[_ ->]].
Qed.

Lemma flag_kept_set_module (m' : M) : flag_kept (@set_module M T m').
Proof. by intros self Hs. Qed.
Lemma cache_check_param_versions self :
  cache (check_param_versions self) = cache self ∧
  m (check_param_versions self) = m self ∧
  param_versions (check_param_versions self) = param_versions self.
Proof.
  unfold check_param_versions. destruct (param_versions self) as [vs|] eqn:Hvs; [|done].
  destruct (check_versions_loop_spec (zip (parameter_versions (m self)) vs) self)
    as [[_ ->]|[_ ->]]; by rewrite ?Hvs.
Qed.

Lemma update_obj_inv a f w :
  flag_kept f → (∀ self, cache (f self) = cache self) →
  world_inv w → world_inv (update_obj a f w).
Proof.
  intros Hf Hc Hw b self. unfold update_obj. cbn [objs hooks next_tid].
  rewrite lookup_alter. destruct (decide (a = b)) as [->|Hne]; [|apply Hw].
  destruct (objs w !! b) as [self0|] eqn:Hb; [|done].
  intros [= <-]. destruct (Hw b self0 Hb) as [Hflag Hcache].
  split; [by apply Hf|]. rewrite Hc. apply Hcache.
Qed.

Lemma backward_inv t w : world_inv w → world_inv (backward t w).
Proof.
  intros Hw b self. rewrite backward_objs.
  destruct (backward_rest t w) as (-> & -> & _).
  destruct (decide ((t, b) ∈ hooks w)); [|apply Hw].
  destruct (objs w !! b) as [self0|] eqn:Hb; [|done].
  intros [= <-]. destruct (Hw b self0 Hb) as [_ Hcache]. by split.
Qed.

Lemma tensor_inv a w r w' :
  world_inv w → tensor a w = Some (r, w') → world_inv w'.
Proof.
  intros Hw Ht. destruct (objs w !! a) as [self|] eqn:Ha;
    [|by unfold tensor in Ht; rewrite Ha in Ht].
  destruct (Hw a self Ha) as [Hflag _].
  rewrite (tensor_computes w a self Ha Hflag) in Ht.
  injection Ht as _ <-. intros b self'. cbn [objs hooks next_tid].
  destruct (decide (a = b)) as [->|Hne].
  - rewrite lookup_insert_eq. intros [= <-]. cbn. split; [done|].
    intros c [= <-]. cbn. split; [lia|by left].
  - rewrite lookup_insert_ne by done. intros Hb.
    destruct (Hw b self' Hb) as [Hf Hc]. split; [done|].
    intros c Hcc. destruct (Hc c Hcc). split; [lia|by right].
Qed.

(** Every wrapper the operations can produce has its flag set. *)
Lemma reachable_inv w : reachable w → world_inv w.
Proof.
  induction 1 as [|o w w' _ IH Hstep]; [intros a self Hl; cbn in Hl; by rewrite lookup_empty in Hl|].
  destruct o as [a m0|a|a|a|t|a m']; simpl in Hstep.
  - destruct (objs w !! a) eqn:Ha; [done|]. injection Hstep as <-.
    intros b self. cbn [objs hooks next_tid].
    destruct (decide (a = b)) as [->|Hne].
    + rewrite lookup_insert_eq. by intros [= <-].
    + rewrite lookup_insert_ne by done. apply IH.
  - destruct (tensor a w) as [[r w1]|] eqn:Ht; [|done].
    injection Hstep as <-. by eapply tensor_inv.
  - injection Hstep as <-. apply update_obj_inv; [apply flag_kept_require_update|done..].
  - injection Hstep as <-.
    apply update_obj_inv; [apply flag_kept_check_param_versions| |done].
    intros self. apply cache_check_param_versions.
  - injection Hstep as <-. by apply backward_inv.
  - injection Hstep as <-. apply update_obj_inv; [apply flag_kept_set_module|done..].
Qed.

(** In a world the operations can produce, [tensor()] always invokes [m]. *)
Lemma reachable_tensor_computes w a self :
  reachable w → objs w !! a = Some self →
  ∃ c w', tensor a w = Some (Some c, w') ∧ tid c = next_tid w ∧
          tval c = (call (m self)).1 ∧ invocations a w' = S (invocations a w).
Proof.
  intros Hr Ha. destruct (reachable_inv w Hr a self Ha) as [Hflag _].
  eexists _, _. split; [by apply tensor_computes|].
  split; [done|]. split; [done|]. by apply invocations_cons.
Qed.

(** C1. The claim is that a second [tensor()] with no trigger in between
    returns the cached tensor without invoking [m].  The code does not:
    [tensor()] never clears [needs_update], so on a new wrapper two calls
    in a row invoke [m] twice and return two different tensor objects,
    although the recorded versions still agree with the parameters and no
    backward pass has run. *)
Theorem tensor_recomputes_without_trigger (m0 : M) :
  let w0 := {| objs := <[0 := ComputedParameter_init m0]> ∅; hooks := [];
               next_tid := 0; log := [] |} in
  step (OpNew 0 m0) empty_world = Some w0 ∧
  ∃ c1 w1 self1 c2 w2,
    tensor 0 w0 = Some (Some c1, w1) ∧
    objs w1 !! 0 = Some self1 ∧ cache self1 = Some c1 ∧
    needs_update self1 = true ∧
    param_versions self1 = Some (parameter_versions (m self1)) ∧
    tensor 0 w1 = Some (Some c2, w2) ∧
    tid c2 ≠ tid c1 ∧ tval c2 = (call (m self1)).1 ∧
    invocations 0 w1 = 1 ∧ invocations 0 w2 = 2.
Proof.
  intros w0. split; [done|].
  assert (H0 : objs w0 !! 0 = Some (ComputedParameter_init m0))
    by apply lookup_insert_eq.
  pose proof (tensor_computes w0 0 _ H0 eq_refl) as Ht1. cbn zeta in Ht1.
  eexists _, _, _. eexists _, _.
  split; [exact Ht1|]. cbn [objs].
  split; [apply lookup_insert_eq|].
  do 3 (split; [done|]).
  split; [apply tensor_computes; [apply lookup_insert_eq|done]|].
  cbn. by split_and!.
Qed.


(** C3. [tensor()] registers [require_update] as a hook on the tensor it
    computes.  Whatever the flag is later, while that tensor is the cached
    value a backward pass through it sets [needs_update], and the next
    [tensor()] invokes [m] again. *)
Theorem backward_triggers_recompute w a self :
  objs w !! a = Some self → needs_update self = true →
  ∃ c w1,
    tensor a w = Some (Some c, w1) ∧ (tid c, a) ∈ hooks w1 ∧
    ∀ w2 self2,
      objs w2 !! a = Some self2 → cache self2 = Some c → hooks w1 ⊆ hooks w2 →
      let w3 := backward (tid c) w2 in
      ∃ self3 c' w4,
        objs w3 !! a = Some self3 ∧ needs_update self3 = true ∧
        m self3 = m self2 ∧
        tensor a w3 = Some (Some c', w4) ∧
        tval c' = (call (m self2)).1 ∧
        invocations a w4 = S (invocations a w2).
Proof.
  intros Ha Hflag. eexists _, _.
  split; [by apply tensor_computes|]. cbn [hooks tid].
  split; [by left|].
  intros w2 self2 Ha2 Hc2 Hsub.
  assert (Hin : (next_tid w, a) ∈ hooks w2) by (apply Hsub; by left).
  assert (Ha3 : objs (backward (next_tid w) w2) !! a = Some (require_update self2)).
  { rewrite backward_objs, decide_True by done. by rewrite Ha2. }
  destruct (backward_rest (next_tid w) w2) as (_ & _ & Hlog).
  eexists _, _, _. split; [exact Ha3|].
  split; [reflexivity|]. split; [reflexivity|].
  split; [apply tensor_computes; [exact Ha3|reflexivity]|].
  split; [reflexivity|].
  unfold invocations. cbn [log]. rewrite Hlog. by rewrite filter_cons_True.
Qed.
End ComputedParameterFacts.

(** ** [__torch_function__] *)

Section TorchFunctionFacts.
Context {M T : Type} `{TorchModule M T} {V Res : Type}.
Implicit Types (w : world M T) (args : list (value T V)).

(** [tensor()] touches no wrapper but its own, and neither adds nor
    removes wrappers. *)
Lemma tensor_frame a w r w' :
  tensor a w = Some (r, w') →
  (∀ b, is_Some (objs w' !! b) ↔ is_Some (objs w !! b)) ∧
  (∀ b, b ≠ a → objs w' !! b = objs w !! b ∧ invocations b w' = invocations b w).
Proof.
  unfold tensor. destruct (objs w !! a) as [self|] eqn:Ha; [|done]. simpl.
  destruct (needs_update self); [|by intros [= <- <-]].
  destruct (call (m self)) as [t m']. intros [= <- <-]. cbn [objs]. split.
  - intros b. destruct (decide (a = b)) as [->|Hne].
    + rewrite lookup_insert_eq, Ha. by split.
    + by rewrite lookup_insert_ne.
  - intros b Hne. rewrite lookup_insert_ne by done. split; [done|].
    unfold invocations. cbn [log]. by rewrite filter_cons_False.
Qed.

Lemma tensor_total a w : is_Some (objs w !! a) → is_Some (tensor a w).
Proof.
  intros [self Ha]. unfold tensor. rewrite Ha. simpl.
  destruct (needs_update self); [|done]. by destruct (call (m self)).
Qed.

Lemma convert_arg_inv (x y : value T V) w w' :
  convert_arg x w = Some (y, w') →
  match x with
  | VComputedParameter a => ∃ t, tensor a w = Some (t, w') ∧ y = of_cache t
  | _ => y = x ∧ w' = w
  end.
Proof.
  destruct x; simpl; try by intros [= <- <-].
  destruct (tensor a w) as [[t w1]|]; [|done].
  simpl. intros [= <- <-]. by exists t.
Qed.

(** The converted tuple, position by position. *)
Lemma convert_args_spec args w args' w' :
  convert_args args w = Some (args', w') →
  length args' = length args ∧
  ∀ i x, args !! i = Some x →
    ∃ pre wi, convert_args (take i args) w = Some (pre, wi) ∧
      match x with
      | VComputedParameter a =>
          ∃ t wi', tensor a wi = Some (t, wi') ∧ args' !! i = Some (of_cache t)
      | _ => args' !! i = Some x
      end.
Proof.
  revert w args'. induction args as [|x0 rest IH]; intros w args'; simpl.
  - intros [= <- <-]. by split.
  - destruct (convert_arg x0 w) as [[y w1]|] eqn:Hx; [|done]. simpl.
    destruct (convert_args rest w1) as [[ys w2]|] eqn:Hrest; [|done]. simpl.
    intros [= <- <-]. destruct (IH _ _ Hrest) as [Hlen Hpos].
    split; [simpl; by rewrite Hlen|].
    intros [|i] x Hi; simpl in Hi.
    + injection Hi as ->. exists [], w. split; [done|].
      pose proof (convert_arg_inv _ _ _ _ Hx) as Hinv.
      destruct x; try (by destruct Hinv as [-> _]).
      destruct Hinv as (t & Ht & ->). by exists t, w1.
    + destruct (Hpos i x Hi) as (pre & wi & Hpre & Hx').
      exists (y :: pre), wi. split; [|done].
      simpl. rewrite Hx. simpl. by rewrite Hpre.
Qed.

Lemma convert_arg_frame (x y : value T V) w w' a :
  convert_arg x w = Some (y, w') →
  (∀ b, is_Some (objs w' !! b) ↔ is_Some (objs w !! b)) ∧
  (x ≠ VComputedParameter a →
   objs w' !! a = objs w !! a ∧ invocations a w' = invocations a w).
Proof.
  intros Hx. pose proof (convert_arg_inv _ _ _ _ Hx) as Hinv.
  destruct x; try (by destruct Hinv as [_ ->]).
  destruct Hinv as (t & Ht & _). destruct (tensor_frame _ _ _ _ Ht) as [Hdom Hfr].
  split; [done|]. intros Hne. apply Hfr. congruence.
Qed.

Lemma convert_args_total args w :
  (∀ a, positional a args → is_Some (objs w !! a)) →
  is_Some (convert_args args w).
Proof.
  revert w. induction args as [|x rest IH]; intros w Hall; simpl; [done|].
  assert (Hx : is_Some (convert_arg x w)).
  { destruct x; simpl; try done.
    destruct (tensor_total a w) as [[t w1] ->]; [|done]. apply Hall. by left. }
  destruct Hx as [[y w1] Hx]. rewrite Hx. simpl.
  destruct (convert_arg_frame _ _ _ _ 0 Hx) as [Hdom _].
  destruct (IH w1) as [[ys w2] ->]; [|done].
  intros a Ha. apply Hdom, Hall. by right.
Qed.

Lemma convert_args_frame args w args' w' a :
  convert_args args w = Some (args', w') → ¬ positional a args →
  objs w' !! a = objs w !! a ∧ invocations a w' = invocations a w.
Proof.
  revert w args'. induction args as [|x rest IH]; intros w args'; simpl.
  - by intros [= <- <-].
  - destruct (convert_arg x w) as [[y w1]|] eqn:Hx; [|done]. simpl.
    destruct (convert_args rest w1) as [[ys w2]|] eqn:Hrest; [|done]. simpl.
    intros [= <- <-] Hnot.
    destruct (convert_arg_frame _ _ _ _ a Hx) as [_ Hfr].
    destruct Hfr as [<- <-]; [intros ->; apply Hnot; by left|].
    eapply IH; [done|]. intros Hin. apply Hnot. by right.
Qed.

(** C7. When the wrappers among the positional arguments exist,
    [__torch_function__] returns what [func] returns on the converted
    arguments: the tuple has the same length, every argument that is not a
    [ComputedParameter] is in its place unchanged, every
    [ComputedParameter] is replaced by what its [tensor()] returned when
    the arguments before it had been converted, and the keyword arguments
    are the ones passed (or empty). *)
Theorem torch_function_substitutes
    (func : list (value T V) → gmap string (value T V) → Res)
    types args kwargs w :
  (∀ a, positional a args → is_Some (objs w !! a)) →
  ∃ args' w',
    torch_function func types args kwargs w
      = Some (func args' (default ∅ kwargs), w') ∧
    length args' = length args ∧
    ∀ i x, args !! i = Some x →
      ∃ pre wi, convert_args (take i args) w = Some (pre, wi) ∧
        match x with
        | VComputedParameter a =>
            ∃ t wi', tensor a wi = Some (t, wi') ∧ args' !! i = Some (of_cache t)
        | _ => args' !! i = Some x
        end.
Proof.
  intros Hall. destruct (convert_args_total args w Hall) as [[args' w'] Hc].
  exists args', w'. unfold torch_function. rewrite Hc. simpl.
  split; [done|]. apply (convert_args_spec _ _ _ _ Hc).
Qed.

(** C10. The keyword arguments reach [func] as they were passed.  A
    wrapper passed by keyword only is still a wrapper when [func] gets it,
    its [tensor()] has not been called, and it is unchanged. *)
Theorem torch_function_keeps_kwargs
    (func : list (value T V) → gmap string (value T V) → Res)
    types args (kw : gmap string (value T V)) w :
  (∀ a, positional a args → is_Some (objs w !! a)) →
  ∃ args' w',
    torch_function func types args (Some kw) w = Some (func args' kw, w') ∧
    ∀ k a, kw !! k = Some (VComputedParameter a) → ¬ positional a args →
      objs w' !! a = objs w !! a ∧ invocations a w' = invocations a w.
Proof.
  intros Hall. destruct (convert_args_total args w Hall) as [[args' w'] Hc].
  exists args', w'. unfold torch_function. rewrite Hc. simpl.
  split; [done|]. intros k a _ Hnot. by eapply convert_args_frame.
Qed.
End TorchFunctionFacts.

(** ** The proxy methods *)

Section ProxyFacts.
Implicit Types (cls : gmap string class_attr) (members : list (string * member_kind)).

Lemma install_proxy_keeps cls nm n x :
  cls !! n = Some x → install_proxy cls nm !! n = Some x.
Proof.
  intros Hn. unfold install_proxy.
  destruct (cls !! nm.1) eqn:Hnm; [done|].
  destruct (ismethoddescriptor nm.2); [|done].
  rewrite lookup_insert_ne; [done|]. congruence.
Qed.

Lemma install_proxies_keeps members cls n x :
  cls !! n = Some x → install_proxies members cls !! n = Some x.
Proof.
  revert cls. induction members as [|nm rest IH]; intros cls Hn; [done|].
  apply IH. by apply install_proxy_keeps.
Qed.

Lemma install_proxy_fresh cls nm n :
  cls !! n = None →
  install_proxy cls nm !! n =
    if decide (nm.1 = n) then
      if ismethoddescriptor nm.2 then Some (Proxy n) else None
    else None.
Proof.
  intros Hn. unfold install_proxy. destruct (decide (nm.1 = n)) as [->|Hne].
  - rewrite Hn. destruct (ismethoddescriptor nm.2); [|done].
    by rewrite lookup_insert_eq.
  - destruct (cls !! nm.1); [done|].
    destruct (ismethoddescriptor nm.2); [|done]. by rewrite lookup_insert_ne.
Qed.

Lemma install_proxies_installs members cls n k :
  (n, k) ∈ members → ismethoddescriptor k = true → cls !! n = None →
  install_proxies members cls !! n = Some (Proxy n).
Proof.
  revert cls. induction members as [|nm rest IH]; intros cls Hin Hk Hn.
  - by apply elem_of_nil in Hin.
  - cbn [install_proxies fold_left]. fold (install_proxies rest (install_proxy cls nm)).
    pose proof (install_proxy_fresh cls nm n Hn) as Hfresh.
    apply elem_of_cons in Hin as [<-|Hin].
    + cbn [fst snd] in Hfresh. rewrite decide_True, Hk in Hfresh by done.
      by apply install_proxies_keeps.
    + destruct (decide (nm.1 = n)) as [Heq|Hne].
      * destruct (ismethoddescriptor nm.2); [by apply install_proxies_keeps|by apply IH].
      * by apply IH.
Qed.

Lemma install_proxies_skips members cls n :
  (∀ k, (n, k) ∈ members → ismethoddescriptor k = false) → cls !! n = None →
  install_proxies members cls !! n = None.
Proof.
  revert cls. induction members as [|[n' k'] rest IH]; intros cls Hall Hn; [done|].
  cbn [install_proxies fold_left]. fold (install_proxies rest (install_proxy cls (n', k'))).
  apply IH; [intros k Hk; apply Hall; by right|].
  rewrite install_proxy_fresh by done. cbn [fst snd].
  destruct (decide (n' = n)) as [->|]; [|done].
  rewrite (Hall k'); [done|by left].
Qed.

Context {M T : Type} `{TorchModule M T} {V Res : Type}.
Variable tensor_method :
  string → option (tobj T) → list (value T V) → gmap string (value T V) → Res.
Variable existing_method :
  string → nat → list (value T V) → gmap string (value T V) →
  world M T → option (Res * world M T).

(** C6, as the code has it.  A member of [torch.Tensor] that
    [inspect.ismethoddescriptor] accepts, under a name [ComputedParameter]
    does not have yet, becomes a proxy under that name, and calling it on a
    wrapper is calling the method of that name on what [tensor()] returns,
    with the same arguments.  A name [ComputedParameter] already has keeps
    its attribute, and a name whose members are not method descriptors is
    not added. *)
Theorem proxies_installed members cls0 name kind a args kwargs (w : world M T) :
  (name, kind) ∈ members → ismethoddescriptor kind = true → cls0 !! name = None →
  let cls := install_proxies members cls0 in
  cls !! name = Some (Proxy name) ∧
  invoke tensor_method existing_method cls name a args kwargs w
    = ('(t, w') ← tensor a w; Some (tensor_method name t args kwargs, w')) ∧
  (∀ n x, cls0 !! n = Some x → cls !! n = Some x) ∧
  (∀ n, (∀ k, (n, k) ∈ members → ismethoddescriptor k = false) →
        cls0 !! n = None → cls !! n = None).
Proof.
  intros Hin Hk Hn cls.
  assert (Hcls : cls !! name = Some (Proxy name))
    by (by eapply install_proxies_installs).
  split_and!; [done| |intros n x; apply install_proxies_keeps
              |intros n; apply install_proxies_skips].
  unfold invoke. by rewrite Hcls.
Qed.
End ProxyFacts.

(** ** [replace_setattr] *)

Section ReplaceSetattrFacts.
Context {T V : Type}.
Variable old_setattr :
  gmap string (value T V) → string → value T V → option (gmap string (value T V)).

(** The attribute is deleted first exactly when the written condition
    holds, and the original [__setattr__] is always the last call. *)
Lemma new_setattr_calls (self : gmap string (value T V)) n v :
  let oldval := default (VInt 1) (self !! n) in
  (new_setattr old_setattr self n v).1 =
    (if splice_condition v oldval then [CallDelattr n] else [])
    ++ [CallOldSetattr n v].
Proof. unfold new_setattr. simpl. by destruct (splice_condition _ _). Qed.

Lemma splice_condition_spec (v oldval : value T V) :
  splice_condition v oldval = true ↔
  (isinstance_ComputedParameter v = true ∧ is_None oldval = true) ∨
  isinstance_Parameter oldval = true.
Proof.
  unfold splice_condition. rewrite orb_true_iff, andb_true_iff. tauto.
Qed.

(** For a [ComputedParameter] value the written condition and the
    described one agree. *)
Lemma splice_condition_ComputedParameter (v oldval : value T V) :
  isinstance_ComputedParameter v = true →
  splice_condition v oldval = splice_intended v oldval.
Proof. unfold splice_condition, splice_intended. by intros ->. Qed.

(** C5. The claim is that an assignment whose value is not a
    [ComputedParameter] never deletes the attribute first.  The code does
    delete it whenever the attribute holds a [Parameter]: here a plain
    [Parameter] is assigned over a [Parameter], the value is not a
    [ComputedParameter], the described condition is false, and still
    [delattr] is called before the original [__setattr__]. *)
Theorem new_setattr_deletes_for_plain_parameter (p q : tobj T) :
  let self : gmap string (value T V) := {[ "weight"%string := VParameter p ]} in
  let v : value T V := VParameter q in
  isinstance_ComputedParameter v = false ∧
  splice_intended v (default (VInt 1) (self !! "weight"%string)) = false ∧
  new_setattr old_setattr self "weight"%string v =
    ([CallDelattr "weight"%string; CallOldSetattr "weight"%string v],
     old_setattr ∅ "weight"%string v).
Proof.
  intros self v. split; [done|].
  assert (Hl : self !! "weight"%string = Some (VParameter p))
    by apply lookup_singleton_eq.
  unfold new_setattr. rewrite Hl. cbn.
  split; [done|]. by f_equal.
Qed.
End ReplaceSetattrFacts.

(** ** The state the two classes keep *)

Section PersistentStateFacts.
Context {R : Type} `{Scalar R}.
Implicit Types (w : world (SpectralNormWeight R) (Tensor R))
               (self : ComputedParameter (SpectralNormWeight R) (Tensor R)).

(** [forward] writes nothing but the two buffers. *)
Lemma forward_configuration (snw : SpectralNormWeight R) :
  same_configuration snw (forward snw).2 ∧
  weight_mat_version snw = weight_mat_version (forward snw).2 ∧
  weight_mat (forward snw).2 = weight_mat snw.
Proof. unfold forward. by destruct (forward_locals snw) as [[f lu] lv]. Qed.

Lemma same_configuration_refl (snw : SpectralNormWeight R) : same_configuration snw snw.
Proof. by repeat split. Qed.

(** C8, as the code has it.  An operation of the two classes leaves the
    configuration of the module as it was, and does not write the weight
    matrix or its version counter; what it may change is [u], [v], [cache],
    [needs_update] and the recorded [param_versions]. *)
Theorem component_ops_frame o w w' a self :
  component_op o = true → objs w !! a = Some self → step o w = Some w' →
  ∃ self', objs w' !! a = Some self' ∧
    only_listed_or_versions_differ self self' ∧
    weight_mat (m self') = weight_mat (m self) ∧
    weight_mat_version (m self') = weight_mat_version (m self).
Proof.
  intros Hop Ha Hstep.
  assert (Halter : ∀ f,
    (∀ s, m (f s) = m s) →
    ∃ self', f <$> Some self = Some self' ∧
      only_listed_or_versions_differ self self' ∧
      weight_mat (m self') = weight_mat (m self) ∧
      weight_mat_version (m self') = weight_mat_version (m self)).
  { intros f Hf. exists (f self). split; [done|].
    unfold only_listed_or_versions_differ. rewrite Hf.
    split; [apply same_configuration_refl|done]. }
  assert (Hsame : ∃ self', Some self = Some self' ∧
    only_listed_or_versions_differ self self' ∧
    weight_mat (m self') = weight_mat (m self) ∧
    weight_mat_version (m self') = weight_mat_version (m self))
    by apply (Halter id (fun s => eq_refl)).
  destruct o as [b m0|b|b|b|t|b m']; try done; simpl in Hstep.
  - destruct (tensor b w) as [[r w1]|] eqn:Ht; [|done]. injection Hstep as <-.
    destruct (decide (b = a)) as [->|Hne];
      [|destruct (tensor_frame _ _ _ _ Ht) as [_ Hfr];
        destruct (Hfr a) as [-> _]; [done|by rewrite Ha]].
    unfold tensor in Ht. rewrite Ha in Ht. simpl in Ht.
    destruct (needs_update self); [|injection Ht as _ <-; by rewrite Ha].
    pose proof (forward_configuration (m self)) as (Hcfg & Hver & Hw).
    destruct (forward (m self)) as [t m1]. injection Ht as _ <-.
    cbn [objs]. rewrite lookup_insert_eq. eexists. split; [done|]. by split.
  - injection Hstep as <-. unfold update_obj. cbn [objs]. rewrite lookup_alter.
    case_decide; [subst; rewrite Ha; by apply Halter|by rewrite Ha].
  - injection Hstep as <-. unfold update_obj. cbn [objs]. rewrite lookup_alter.
    case_decide; [subst; rewrite Ha; apply Halter|by rewrite Ha].
    intros s. apply cache_check_param_versions.
  - injection Hstep as <-. rewrite backward_objs, Ha.
    case_decide; [by apply Halter|done].
Qed.
End PersistentStateFacts.

(** ** The statements above on concrete inputs *)

Section Concrete.
Local Open Scope string_scope.

(** C9. The claim is that in training mode the updated [u] and [v] are
    written back into the buffers.  With [n_power_iterations = 2] the code
    does not: after the first run of the loop body the locals name clones,
    so the second run writes into the clones.  [sigma] is computed from
    the second iterate, and the buffers are left with the first. *)
Theorem forward_two_iterations_buffers :
  training snw_two_iterations = true ∧ n_power_iterations snw_two_iterations = 2 ∧
  (u snw_two_iterations, v snw_two_iterations) = ([1%float], [1%float]) ∧
  power_step snw_two_iterations (u snw_two_iterations, v snw_two_iterations)
    = ([0.25%float], [0.5%float]) ∧
  power_step snw_two_iterations ([0.25%float], [0.5%float])
    = ([0.0625%float], [0.125%float]) ∧
  local_values (forward_locals snw_two_iterations)
    = ([0.0625%float], [0.125%float]) ∧
  forward_sigma snw_two_iterations = 0.00390625%float ∧
  (u (forward snw_two_iterations).2, v (forward snw_two_iterations).2)
    = ([0.25%float], [0.5%float]) ∧
  (u (forward snw_two_iterations).2, v (forward snw_two_iterations).2)
    ≠ local_values (forward_locals snw_two_iterations).
Proof. vm_compute. split_and!; try reflexivity. discriminate. Qed.

Lemma reachable_world_new : reachable world_new.
Proof.
  apply (reachable_step (OpNew 0 snw_two_iterations) empty_world);
    [apply reachable_empty|reflexivity].
Qed.

Lemma step_tensor_world_new : step (OpTensor 0) world_new = Some world_used.
Proof. by vm_compute. Qed.



Lemma backward_triggers_recompute_witness :
  ∃ c w1,
    tensor 0 world_new = Some (Some c, w1) ∧ (tid c, 0) ∈ hooks w1 ∧
    ∀ w2 self2,
      objs w2 !! 0 = Some self2 → cache self2 = Some c → hooks w1 ⊆ hooks w2 →
      let w3 := backward (tid c) w2 in
      ∃ self3 c' w4,
        objs w3 !! 0 = Some self3 ∧ needs_update self3 = true ∧
        m self3 = m self2 ∧
        tensor 0 w3 = Some (Some c', w4) ∧
        tval c' = (call (m self2)).1 ∧
        invocations 0 w4 = S (invocations 0 w2).
Proof.
  apply (backward_triggers_recompute world_new 0 (ComputedParameter_init snw_two_iterations));
    reflexivity.
Defined.

(** C8 as stated fails: the first [tensor()] of a new wrapper replaces
    [param_versions], which is none of the five listed entities. *)
Lemma tensor_changes_param_versions :
  ∃ self self',
    component_op (R := float) (OpTensor 0) = true ∧
    objs world_new !! 0 = Some self ∧
    step (OpTensor 0) world_new = Some world_used ∧
    objs world_used !! 0 = Some self' ∧
    param_versions self = None ∧ param_versions self' = Some [0%Z] ∧
    ¬ only_listed_state_differs self self'.
Proof.
  eexists _, _. split; [reflexivity|].
  split; [reflexivity|]. split; [apply step_tensor_world_new|].
  split; [vm_compute; reflexivity|].
  split; [reflexivity|]. split; [reflexivity|].
  intros [_ Hpv]. discriminate Hpv.
Qed.

Lemma component_ops_frame_witness :
  ∃ self', objs world_used !! 0 = Some self' ∧
    only_listed_or_versions_differ (ComputedParameter_init snw_two_iterations) self' ∧
    weight_mat (m self') = weight_mat snw_two_iterations ∧
    weight_mat_version (m self') = weight_mat_version snw_two_iterations.
Proof.
  apply (component_ops_frame (OpTensor 0) world_new world_used 0
           (ComputedParameter_init snw_two_iterations));
    [reflexivity|reflexivity|apply step_tensor_world_new].
Defined.

(** C6 as stated fails.  [__hash__] is defined in the class body of
    [ComputedParameter], so the loop skips it whether or not it is a method
    descriptor of [torch.Tensor]: calling it returns the hash of the module
    and does not call [tensor()], while the same call on [self.tensor()]
    computes the tensor and returns its hash.  A method of [torch.Tensor]
    written in Python, [register_hook] here, is not a method descriptor and
    does not become available at all. *)
Lemma hash_is_not_proxied :
  let tensor_method := fun name t (_ : list (value (Tensor float) unit))
                           (_ : gmap string (value (Tensor float) unit)) =>
                         TensorCall name t in
  Forall (fun kind =>
    let cls := install_proxies [("__hash__", kind); ("register_hook", PyFunction)]
                 (ComputedParameter_attrs []) in
    is_method kind = true ∧
    cls !! "__hash__" = Some Existing ∧
    invoke tensor_method body_method cls "__hash__" 0 [] ∅ world_new
      = Some (HashOfModule 0, world_new) ∧
    invoke tensor_method body_method cls "__hash__" 0 [] ∅ world_new
      ≠ ('(t, w') ← tensor 0 world_new; Some (tensor_method "__hash__" t [] ∅, w')) ∧
    is_method PyFunction = true ∧
    invoke tensor_method body_method cls "register_hook" 0 [] ∅ world_new = None)
    [MethodDescriptor; PyFunction].
Proof.
  intros tensor_method. repeat constructor; try (vm_compute; reflexivity);
    vm_compute; discriminate.
Qed.

Lemma proxies_installed_witness :
  let tensor_method := fun name t (_ : list (value (Tensor float) unit))
                           (_ : gmap string (value (Tensor float) unit)) =>
                         TensorCall name t in
  let cls := install_proxies [("__hash__", PyFunction); ("add", MethodDescriptor)]
               (ComputedParameter_attrs ["float"; "to"]) in
  cls !! "add" = Some (Proxy "add") ∧
  invoke tensor_method body_method cls "add" 0 [VInt 1] ∅ world_new
    = ('(t, w') ← tensor 0 world_new; Some (tensor_method "add" t [VInt 1] ∅, w')) ∧
  (∀ n x, ComputedParameter_attrs ["float"; "to"] !! n = Some x → cls !! n = Some x) ∧
  (∀ n, (∀ k, (n, k) ∈ [("__hash__", PyFunction); ("add", MethodDescriptor)] →
              ismethoddescriptor k = false) →
        ComputedParameter_attrs ["float"; "to"] !! n = None → cls !! n = None).
Proof.
  intros tensor_method.
  apply (proxies_installed tensor_method body_method
           [("__hash__", PyFunction); ("add", MethodDescriptor)]
           (ComputedParameter_attrs ["float"; "to"]) "add" MethodDescriptor
           0 [VInt 1] ∅ world_new).
  - right. left.
  - reflexivity.
  - vm_compute. reflexivity.
Defined.

(** [func] that returns what it was called with *)
Lemma torch_function_substitutes_witness :
  let args : list (value (Tensor float) unit) :=
    [VInt 3; VComputedParameter 0; VNone] in
  ∃ args' w',
    torch_function (fun a k => (a, k)) [] args None world_new
      = Some ((args', ∅), w') ∧
    length args' = 3 ∧
    ∀ i x, args !! i = Some x →
      ∃ pre wi, convert_args (take i args) world_new = Some (pre, wi) ∧
        match x with
        | VComputedParameter a =>
            ∃ t wi', tensor a wi = Some (t, wi') ∧ args' !! i = Some (of_cache t)
        | _ => args' !! i = Some x
        end.
Proof.
  intros args.
  apply (torch_function_substitutes (fun a k => (a, k)) [] args None world_new).
  intros a Ha. unfold positional in Ha.
  apply elem_of_cons in Ha as [Ha|Ha]; [discriminate Ha|].
  apply elem_of_cons in Ha as [Ha|Ha];
    [injection Ha as ->; by eexists|].
  apply elem_of_cons in Ha as [Ha|Ha]; [discriminate Ha|].
  by apply elem_of_nil in Ha.
Defined.

Lemma torch_function_keeps_kwargs_witness :
  let args : list (value (Tensor float) unit) := [VInt 3] in
  let kw : gmap string (value (Tensor float) unit) :=
    {[ "weight" := VComputedParameter 0 ]} in
  ∃ args' w',
    torch_function (fun a k => (a, k)) [] args (Some kw) world_new
      = Some ((args', kw), w') ∧
    ∀ k a, kw !! k = Some (VComputedParameter a) → ¬ positional a args →
      objs w' !! a = objs world_new !! a ∧
      invocations a w' = invocations a world_new.
Proof.
  intros args kw.
  apply (torch_function_keeps_kwargs (fun a k => (a, k)) [] args kw world_new).
  intros a Ha. unfold positional in Ha.
  apply elem_of_cons in Ha as [Ha|Ha]; [discriminate Ha|].
  by apply elem_of_nil in Ha.
Defined.
End Concrete.

(** * Further properties of the code *)

(** ** Shapes in [SpectralNormWeight] *)

Section ShapeFacts.
Context {R : Type} `{Scalar R}.
Implicit Types (self : SpectralNormWeight R).





Lemma forward_sizes self :
  sizes (forward self).1 =
    if decide (dim self = 0) then permuted_shape self
    else swap_at 0 (dim self) (permuted_shape self).
Proof.
  unfold forward. destruct (forward_locals self) as [[f lu] lv].
  unfold scaled_weight. cbn [fst]. by destruct (decide (dim self = 0)).
Qed.


(** X2. For [dim = 0] and [dim = 1] the tensor [forward] returns has the
    shape the module was built for. *)
Theorem forward_sizes_dim_0_1 randn_mat randn_vec (shape : list nat) (d : nat)
    (e : R) (n : nat) :
  d < length shape → d ≤ 1 →
  sizes (forward (SpectralNormWeight_init randn_mat randn_vec shape d e n)).1 = shape.
Proof.
  intros Hd Hle. rewrite forward_sizes.
  cbn [SpectralNormWeight_init dim permuted_shape].
  destruct d as [|[|d]]; [| |lia].
  - destruct shape as [|x rest]; [simpl in Hd; lia|]. done.
  - destruct shape as [|x [|y rest]]; try (simpl in Hd; lia). done.
Qed.

(** X3. For [dim = 2] the final [transpose(0, dim)] does not undo the
    permutation of [__init__]: a module built for the shape [(a, b, c, ...)]
    returns a tensor of shape [(b, a, c, ...)]. *)
Theorem forward_sizes_dim_2 randn_mat randn_vec (a b c : nat) (rest : list nat)
    (e : R) (n : nat) :
  sizes (forward (SpectralNormWeight_init randn_mat randn_vec
                    (a :: b :: c :: rest) 2 e n)).1
  = b :: a :: c :: rest.
Proof. by rewrite forward_sizes. Qed.







(** [power_step] reads the module's [eps], weight and width only. *)
Lemma power_step_ext self1 self2 (uv : list R * list R) :
  eps self1 = eps self2 → weight_mat self1 = weight_mat self2 →
  permuted_shape self1 = permuted_shape self2 →
  power_step self1 uv = power_step self2 uv.
Proof. unfold power_step, width. by intros -> -> ->. Qed.

Lemma forward_calls_configuration k self :
  same_configuration self (forward_calls k self) ∧
  weight_mat (forward_calls k self) = weight_mat self.
Proof.
  induction k as [|k [IHc IHw]]; [by repeat split|].
  unfold forward_calls in *. simpl.
  destruct (forward_configuration (Nat.iter k (λ s, (forward s).2) self))
    as ((? & ? & ? & ? & ? & ?) & _ & Hw).
  destruct IHc as (? & ? & ? & ? & ? & ?).
  split; [repeat split; congruence|congruence].
Qed.

(** X5. In training mode with at least one iteration, every call of
    [forward] advances the stored vectors by exactly one step of the power
    iteration, whatever [n_power_iterations] is: after [k] calls the buffers
    hold the [k]-th iterate. *)
Theorem forward_calls_buffers self (k : nat) :
  training self = true → 0 < n_power_iterations self →
  (u (forward_calls k self), v (forward_calls k self))
    = Nat.iter k (power_step self) (u self, v self).
Proof.
  intros Ht Hn. induction k as [|k IH]; [done|].
  destruct (forward_calls_configuration k self)
    as ((Hn' & He & _ & _ & Hp & Ht') & Hw).
  change (forward_calls (S k) self) with (forward (forward_calls k self)).2.
  rewrite forward_training_buffers by congruence.
  rewrite IH. simpl. by apply power_step_ext.
Qed.


(** X7. Outside training mode, or with [n_power_iterations = 0], [forward]
    leaves the module exactly as it was, so any number of calls returns the
    same tensor. *)
Theorem forward_calls_frozen self (k : nat) :
  training self = false ∨ n_power_iterations self = 0 →
  forward_calls k self = self ∧
  (forward (forward_calls k self)).1 = (forward self).1 ∧
  forward_sigma self = dot (u self) (mv (weight_mat self) (v self)).
Proof.
  intros Hfrozen.
  assert (Hloc : forward_locals self = initial_locals self).
  { unfold forward_locals. destruct Hfrozen as [->| ->]; [done|].
    by destruct (training self). }
  assert (Hfix : (forward self).2 = self).
  { unfold forward. rewrite Hloc. apply store_buffers_initial. }
  assert (Hk : forward_calls k self = self).
  { induction k as [|k IH]; [done|].
    change (forward_calls (S k) self) with (forward (forward_calls k self)).2.
    by rewrite IH. }
  rewrite Hk. split_and!; [done..|].
  unfold forward_sigma. by rewrite Hloc.
Qed.

(** X8. In training mode with [n_power_iterations = 1], the default, the
    buffers after [forward] hold the one step of the power iteration, and
    [sigma] was computed from exactly these stored vectors. *)
Theorem forward_single_iteration self :
  training self = true → n_power_iterations self = 1 →
  let self' := (forward self).2 in
  (u self', v self') = power_step self (u self, v self) ∧
  forward_sigma self = dot (u self') (mv (weight_mat self) (v self')).
Proof.
  intros Ht Hn self'.
  split; [apply forward_training_buffers; [done|lia]|].
  by apply forward_training_single.
Qed.
End ShapeFacts.

(** ** The wrapper's flag, hooks and versions *)

Section WrapperFacts.
Context {M T : Type} `{TorchModule M T}.
Implicit Types (w : world M T) (self : ComputedParameter M T) (a t : nat).



Lemma check_versions_loop_same (vs : list Z) self :
  check_versions_loop (zip vs vs) self = self.
Proof.
  induction vs as [|x vs IH]; [done|]. simpl.
  destruct (decide (x ≠ x)); [done|apply IH].
Qed.

(** X11. [check_param_versions] compares: with recorded versions it sets
    the flag exactly when some parameter's counter differs from the one
    recorded at the same position, and it never touches [m], [cache] or
    [param_versions]. *)
Theorem check_param_versions_spec self vs :
  param_versions self = Some vs →
  (needs_update (check_param_versions self) = true ↔
     needs_update self = true ∨ versions_changed (parameter_versions (m self)) vs) ∧
  m (check_param_versions self) = m self ∧
  cache (check_param_versions self) = cache self ∧
  param_versions (check_param_versions self) = Some vs.
Proof.
  intros Hvs. destruct (cache_check_param_versions self) as (Hc & Hm & Hp).
  rewrite Hm, Hc, Hp, Hvs. split; [|done].
  split.
  - unfold check_param_versions. rewrite Hvs.
    destruct (check_versions_loop_spec (zip (parameter_versions (m self)) vs) self)
      as [[Hex ->]|[_ ->]]; [|by left].
    intros _. right. apply Exists_exists in Hex as ([p v] & Hin & Hne).
    apply list_elem_of_lookup in Hin as [i Hi].
    apply lookup_zip_Some in Hi as [Hp' Hv'].
    by exists i, p, v.
  - intros [Hflag|Hch]; [by apply flag_kept_check_param_versions|].
    by apply (check_param_versions_detects self vs).
Qed.

(** X12. Right after [tensor()] has computed, the recorded versions are the
    current ones and [check_param_versions] changes nothing. *)
Theorem check_after_tensor_is_identity w a self c w' :
  objs w !! a = Some self → needs_update self = true →
  tensor a w = Some (Some c, w') →
  ∃ self', objs w' !! a = Some self' ∧
    param_versions self' = Some (parameter_versions (m self')) ∧
    check_param_versions self' = self'.
Proof.
  intros Ha Hflag Ht. rewrite (tensor_computes w a self Ha Hflag) in Ht.
  injection Ht as _ <-. cbn [objs]. rewrite lookup_insert_eq.
  eexists. split; [done|]. split; [done|].
  unfold check_param_versions. cbn [param_versions m].
  apply check_versions_loop_same.
Qed.

Lemma check_versions_loop_prefix (xs ys1 ys2 : list Z) self :
  check_versions_loop (zip (xs ++ ys1) xs) self = self ∧
  check_versions_loop (zip xs (xs ++ ys2)) self = self.
Proof.
  induction xs as [|x xs [IH1 IH2]]; simpl.
  - split; [by destruct ys1|done].
  - by destruct (decide (x ≠ x)).
Qed.

(** X13. The comparison stops at the shorter list: a parameter that was
    added to the module after the versions were recorded, or one that was
    removed from its end, goes unnoticed. *)
Theorem check_param_versions_ignores_length self vs extra :
  param_versions self = Some vs →
  parameter_versions (m self) = vs ++ extra ∨ vs = parameter_versions (m self) ++ extra →
  check_param_versions self = self.
Proof.
  intros Hvs Hlen. unfold check_param_versions. rewrite Hvs.
  destruct Hlen as [->| ->].
  - apply (check_versions_loop_prefix vs extra []).
  - apply (check_versions_loop_prefix (parameter_versions (m self)) [] extra).
Qed.


(** Hooks are only ever added.  *)
Lemma step_hooks o w w' : step o w = Some w' → ∃ new, hooks w' = new ++ hooks w.
Proof.
  destruct o as [a m0|a|a|a|t|a m']; simpl; intros Hs.
  - destruct (objs w !! a); [done|]. injection Hs as <-. by exists [].
  - unfold tensor in Hs. destruct (objs w !! a) as [self|]; [|done]. simpl in Hs.
    destruct (needs_update self); [|injection Hs as <-; by exists []].
    destruct (call (m self)). injection Hs as <-. by eexists [_].
  - injection Hs as <-. by exists [].
  - injection Hs as <-. by exists [].
  - injection Hs as <-. exists []. apply backward_rest.
  - injection Hs as <-. by exists [].
Qed.


End WrapperFacts.

(** ** More on [__torch_function__] *)

Section DispatchFacts.
Context {M T : Type} `{TorchModule M T} {V Res : Type}.
Implicit Types (w : world M T) (args : list (value T V)).

Lemma convert_args_plain args w :
  Forall (fun x => isinstance_ComputedParameter x = false) args →
  convert_args args w = Some (args, w).
Proof.
  induction 1 as [|x rest Hx _ IH]; [done|]. simpl.
  destruct x; try discriminate Hx; simpl; by rewrite IH.
Qed.

(** X16. Without a [ComputedParameter] among the positional arguments
    [__torch_function__] is a plain call: [func] gets the arguments as they
    are, [kwargs=None] becomes the empty dictionary, and no wrapper is
    touched. *)
Theorem torch_function_plain_call
    (func : list (value T V) → gmap string (value T V) → Res)
    types args kwargs w :
  Forall (fun x => isinstance_ComputedParameter x = false) args →
  torch_function func types args kwargs w = Some (func args (default ∅ kwargs), w).
Proof.
  intros Hplain. unfold torch_function. by rewrite convert_args_plain.
Qed.

(** X17. Every occurrence of a wrapper among the positional arguments costs
    one invocation of its [m]: in a world the operations can produce, the
    conversion invokes [m] of each wrapper as often as the wrapper occurs. *)
Theorem convert_args_invocations args w :
  reachable w →
  (∀ a, positional a args → is_Some (objs w !! a)) →
  ∃ args' w',
    convert_args args w = Some (args', w') ∧ reachable w' ∧
    ∀ a, invocations a w' = invocations a w + occurrences a args.
Proof.
  revert w. induction args as [|x rest IH]; intros w Hr Hall.
  { exists [], w. split; [done|]. split; [done|]. intros a. simpl. lia. }
  assert (Hrest : ∀ w1, (∀ b, is_Some (objs w1 !! b) ↔ is_Some (objs w !! b)) →
            ∀ a, positional a rest → is_Some (objs w1 !! a)).
  { intros w1 Hdom a Ha. apply Hdom, Hall. by right. }
  destruct x as [|z|t|t|b|v0];
    try (destruct (IH w Hr) as (args' & w' & Hc & Hr' & Hinv);
         [intros a Ha; apply Hall; by right|];
         eexists _, w'; simpl; rewrite Hc; simpl;
         split; [done|]; split; [done|]; exact Hinv).
  destruct (Hall b) as [self Hb]; [by left|].
  destruct (reachable_tensor_computes w b self Hr Hb)
    as (c & w1 & Ht & _ & _ & Hinv1).
  assert (Hr1 : reachable w1)
    by (apply (reachable_step (OpTensor b) w); [done|by simpl; rewrite Ht]).
  destruct (tensor_frame _ _ _ _ Ht) as [Hdom Hfr].
  destruct (IH w1 Hr1 (Hrest w1 Hdom)) as (args' & w' & Hc & Hr' & Hinv).
  eexists _, w'. simpl. rewrite Ht. simpl. rewrite Hc. simpl.
  split; [done|]. split; [done|]. intros a. rewrite Hinv.
  destruct (decide (b = a)) as [->|Hne]; [rewrite Hinv1; lia|].
  destruct (Hfr a) as [_ ->]; [done|]. lia.
Qed.
End DispatchFacts.

(** ** More on the proxy loop *)

Section LoopFacts.
Implicit Types (cls : gmap string class_attr) (members : list (string * member_kind)).

Lemma installable_spec n members :
  installable n members = true ↔ ∃ k, (n, k) ∈ members ∧ ismethoddescriptor k = true.
Proof.
  unfold installable. rewrite existsb_exists. split.
  - intros ([n' k] & Hin & Hb). apply andb_true_iff in Hb as [Hn Hk].
    apply bool_decide_eq_true in Hn. simpl in Hn. subst n'.
    exists k. split; [by apply list_elem_of_In|done].
  - intros (k & Hin & Hk). exists (n, k). split; [by apply list_elem_of_In|].
    simpl. rewrite Hk. by rewrite bool_decide_eq_true_2.
Qed.

(** X18. What the class has after the loop: every name it had keeps its
    attribute, every other name that some method descriptor of
    [torch.Tensor] carries is a proxy for the method of that same name, and
    no other name is added. *)
Theorem install_proxies_lookup members cls n :
  install_proxies members cls !! n =
    match cls !! n with
    | Some x => Some x
    | None => if installable n members then Some (Proxy n) else None
    end.
Proof.
  destruct (cls !! n) as [x|] eqn:Hn; [by apply install_proxies_keeps|].
  destruct (installable n members) eqn:Hi.
  - apply installable_spec in Hi as (k & Hin & Hk).
    by eapply install_proxies_installs.
  - apply install_proxies_skips; [|done]. intros k Hin.
    destruct (ismethoddescriptor k) eqn:Hk; [|done].
    assert (installable n members = true) by (apply installable_spec; eauto).
    congruence.
Qed.

Lemma install_proxies_noop members cls :
  (∀ nm, nm ∈ members → is_Some (cls !! nm.1) ∨ ismethoddescriptor nm.2 = false) →
  install_proxies members cls = cls.
Proof.
  induction members as [|nm rest IH]; intros Hall; [done|].
  cbn [install_proxies fold_left].
  assert (Hnm : install_proxy cls nm = cls).
  { unfold install_proxy. destruct (Hall nm) as [[x ->]| ->]; [by left|done|].
    by destruct (cls !! nm.1). }
  rewrite Hnm. apply IH. intros nm' Hin. apply Hall. by right.
Qed.

(** X19. Running the loop a second time changes nothing. *)
Theorem install_proxies_idempotent members cls :
  install_proxies members (install_proxies members cls) = install_proxies members cls.
Proof.
  apply install_proxies_noop. intros [n k] Hin. cbn [fst snd].
  destruct (ismethoddescriptor k) eqn:Hk; [left|by right].
  destruct (cls !! n) as [x|] eqn:Hn.
  - exists x. by apply install_proxies_keeps.
  - exists (Proxy n). by eapply install_proxies_installs.
Qed.
End LoopFacts.

(** ** More on [new_setattr] *)

Section SetattrFacts.
Context {T V : Type}.
Variable old_setattr :
  gmap string (value T V) → string → value T V → option (gmap string (value T V)).
Implicit Types (self : gmap string (value T V)) (n : string) (v : value T V).

(** X20. Assigning to a name the module does not have yet never deletes
    anything, whatever the value: the call is the original [__setattr__]. *)
Theorem new_setattr_new_attribute self n v :
  self !! n = None →
  new_setattr old_setattr self n v = ([CallOldSetattr n v], old_setattr self n v).
Proof.
  intros Hn. unfold new_setattr. rewrite Hn. simpl.
  unfold splice_condition. simpl. by rewrite andb_false_r.
Qed.


(** X22. An assignment that neither replaces a [Parameter] nor puts a
    [ComputedParameter] in the place of [None] behaves exactly like the
    original [__setattr__]. *)
Theorem new_setattr_transparent self n v :
  isinstance_Parameter (default (VInt 1) (self !! n)) = false →
  isinstance_ComputedParameter v = false ∨ is_None (default (VInt 1) (self !! n)) = false →
  new_setattr old_setattr self n v = ([CallOldSetattr n v], old_setattr self n v).
Proof.
  intros Hp Hv. unfold new_setattr, splice_condition. rewrite Hp.
  destruct Hv as [->| ->]; by rewrite ?andb_false_r.
Qed.

(** X23. The splice: assigning a [ComputedParameter] to an attribute that
    holds a [Parameter] or [None] first deletes the attribute, so that the
    original [__setattr__] sees a module without it. *)
Theorem new_setattr_splices self n v x :
  isinstance_ComputedParameter v = true →
  self !! n = Some x → x = VNone ∨ isinstance_Parameter x = true →
  new_setattr old_setattr self n v =
    ([CallDelattr n; CallOldSetattr n v], old_setattr (delete n self) n v) ∧
  delete n self !! n = None ∧
  ∀ n', n' ≠ n → delete n self !! n' = self !! n'.
Proof.
  intros Hv Hn Hx. unfold new_setattr, splice_condition. rewrite Hn, Hv. simpl.
  split; [|split; [apply lookup_delete_eq|intros n' Hne; by apply lookup_delete_ne]].
  destruct Hx as [->| ->]; [done|]. by rewrite orb_true_r.
Qed.

(** X24. Applying [replace_setattr] twice is harmless: the outer
    [new_setattr] deletes, the inner one then finds no attribute and passes
    the call on, so the module ends up as after one application. *)
Theorem replace_setattr_twice self n v :
  (new_setattr (fun s n' v' => (new_setattr old_setattr s n' v').2) self n v).2
  = (new_setattr old_setattr self n v).2.
Proof.
  unfold new_setattr at 1 3.
  destruct (splice_condition v (default (VInt 1) (self !! n))) eqn:Hc; cbn [snd].
  - unfold new_setattr, splice_condition. rewrite lookup_delete_eq. simpl.
    by rewrite andb_false_r.
  - unfold new_setattr. by rewrite Hc.
Qed.
End SetattrFacts.

(** ** The further properties on concrete inputs *)

Section ConcreteFurther.
Local Open Scope string_scope.


Lemma forward_sizes_dim_0_1_witness :
  sizes (forward (SpectralNormWeight_init (fun _ _ => [[0.5%float]])
                    (fun _ => [1%float]) [4; 3] 1 1%float 1)).1 = [4; 3].
Proof.
  apply (forward_sizes_dim_0_1 (fun _ _ => [[0.5%float]]) (fun _ => [1%float])
           [4; 3] 1 1%float 1); simpl; lia.
Defined.


Lemma forward_calls_buffers_witness :
  (u (forward_calls 3 snw_two_iterations), v (forward_calls 3 snw_two_iterations))
    = Nat.iter 3 (power_step snw_two_iterations)
        (u snw_two_iterations, v snw_two_iterations).
Proof.
  apply (forward_calls_buffers snw_two_iterations 3); [reflexivity|simpl; lia].
Defined.


Lemma forward_calls_frozen_witness :
  let self := SpectralNormWeight_init (fun _ _ => [[0.5%float]]) (fun _ => [1%float])
                [1; 1] 0 1%float 0 in
  forward_calls 4 self = self ∧
  (forward (forward_calls 4 self)).1 = (forward self).1 ∧
  forward_sigma self = dot (u self) (mv (weight_mat self) (v self)).
Proof.
  intros self. apply (forward_calls_frozen self 4). by right.
Defined.

Lemma forward_single_iteration_witness :
  let self := SpectralNormWeight_init (fun _ _ => [[0.5%float]]) (fun _ => [1%float])
                [1; 1] 0 1%float 1 in
  let self' := (forward self).2 in
  (u self', v self') = power_step self (u self, v self) ∧
  forward_sigma self = dot (u self') (mv (weight_mat self) (v self')).
Proof.
  intros self. apply (forward_single_iteration self); reflexivity.
Defined.



Lemma check_param_versions_spec_witness :
  let self : ComputedParameter (SpectralNormWeight float) (Tensor float) :=
    {| m := snw_after_step; needs_update := false; cache := None;
       param_versions := Some [0%Z] |} in
  (needs_update (check_param_versions self) = true ↔
     needs_update self = true ∨ versions_changed (parameter_versions (m self)) [0%Z]) ∧
  m (check_param_versions self) = m self ∧
  cache (check_param_versions self) = cache self ∧
  param_versions (check_param_versions self) = Some [0%Z].
Proof.
  intros self. apply (check_param_versions_spec self [0%Z]). reflexivity.
Defined.

Lemma check_after_tensor_is_identity_witness :
  ∃ c w', tensor 0 world_new = Some (Some c, w') ∧
    ∃ self', objs w' !! 0 = Some self' ∧
      param_versions self' = Some (parameter_versions (m self')) ∧
      check_param_versions self' = self'.
Proof.
  eexists _, _. split; [vm_compute; reflexivity|].
  eapply (check_after_tensor_is_identity world_new 0
            (ComputedParameter_init snw_two_iterations));
    [reflexivity|reflexivity|vm_compute; reflexivity].
Defined.

Lemma check_param_versions_ignores_length_witness :
  let self : ComputedParameter (SpectralNormWeight float) (Tensor float) :=
    {| m := snw_after_step; needs_update := false; cache := None;
       param_versions := Some [] |} in
  check_param_versions self = self.
Proof.
  intros self. apply (check_param_versions_ignores_length self [] [1%Z]);
    [reflexivity|by left].
Defined.


Lemma torch_function_plain_call_witness :
  let args : list (value (Tensor float) unit) := [VInt 3; VNone] in
  torch_function (fun a k => (a, k)) [] args None world_new
    = Some ((args, ∅), world_new).
Proof.
  intros args.
  apply (torch_function_plain_call (fun a k => (a, k)) [] args None world_new).
  by repeat constructor.
Defined.

Lemma convert_args_invocations_witness :
  let args : list (value (Tensor float) unit) :=
    [VComputedParameter 0; VInt 2; VComputedParameter 0] in
  ∃ args' w',
    convert_args args world_new = Some (args', w') ∧ reachable w' ∧
    ∀ a, invocations a w' = invocations a world_new + occurrences a args.
Proof.
  intros args. apply (convert_args_invocations args world_new).
  - apply reachable_world_new.
  - intros a Ha. unfold positional in Ha.
    apply elem_of_cons in Ha as [Ha|Ha]; [injection Ha as ->; by eexists|].
    apply elem_of_cons in Ha as [Ha|Ha]; [discriminate Ha|].
    apply elem_of_cons in Ha as [Ha|Ha]; [injection Ha as ->; by eexists|].
    by apply elem_of_nil in Ha.
Defined.

Lemma new_setattr_new_attribute_witness :
  let old := fun (s : gmap string (value unit unit)) n v => Some (<[n := v]> s) in
  new_setattr old ∅ "weight" (VComputedParameter 0)
    = ([CallOldSetattr "weight" (VComputedParameter 0)],
       old ∅ "weight" (VComputedParameter 0)).
Proof.
  intros old. by apply (new_setattr_new_attribute old ∅ "weight" (VComputedParameter 0)).
Defined.


Lemma new_setattr_transparent_witness :
  let old := fun (s : gmap string (value unit unit)) n v => Some (<[n := v]> s) in
  let self : gmap string (value unit unit) := {[ "training" := VInt 1 ]} in
  new_setattr old self "training" (VInt 0)
    = ([CallOldSetattr "training" (VInt 0)], old self "training" (VInt 0)).
Proof.
  intros old self.
  apply (new_setattr_transparent old self "training" (VInt 0));
    [reflexivity|by left].
Defined.

Lemma new_setattr_splices_witness :
  let old := fun (s : gmap string (value unit unit)) n v => Some (<[n := v]> s) in
  let self : gmap string (value unit unit) :=
    {[ "weight" := VParameter {| tid := 0; tval := tt |} ]} in
  new_setattr old self "weight" (VComputedParameter 0) =
    ([CallDelattr "weight"; CallOldSetattr "weight" (VComputedParameter 0)],
     old (delete "weight" self) "weight" (VComputedParameter 0)) ∧
  delete "weight" self !! "weight" = None ∧
  ∀ n', n' ≠ "weight" → delete "weight" self !! n' = self !! n'.
Proof.
  intros old self.
  apply (new_setattr_splices old self "weight" (VComputedParameter 0)
           (VParameter {| tid := 0; tval := tt |}));
    [reflexivity|reflexivity|by right].
Defined.
End ConcreteFurther.
